(** * Folding Pocket controller: rolling average filter and movement classifier

    Shallow embedding of the sketch
    [DFpong_controller_Folding_Pocket.ino]: the globals become one record,
    every function becomes a function from state to state, and the two
    hardware reads of [handleInput] ([millis] and [analogRead]) become
    arguments.

    Integer types.  [long] and [unsigned long] are 32-bit on every Arduino
    core.  The sketch uses ArduinoBLE and the analog pins A6 and A7, i.e.
    one of the 32-bit Nano boards, where [int] and [unsigned int] are 32-bit
    as well.  Values are carried as [Z] and every arithmetic result is
    reduced to its type with the two's complement wrap-around written out
    ([to_int], [to_long], [to_ulong]). *)

From stdpp Require Import base numbers list.

Local Open Scope Z_scope.

(** ** Fixed-width arithmetic *)

Module Width.

Definition bits : Z := 32.
Definition modulus : Z := 2 ^ bits.
Definition half : Z := 2 ^ (bits - 1).

Definition INT_MIN : Z := - half.
Definition INT_MAX : Z := half - 1.

(** Reduction to a signed 32-bit value. *)
Definition wrap_signed (z : Z) : Z := (z + half) mod modulus - half.

(** Reduction to an unsigned 32-bit value. *)
Definition wrap_unsigned (z : Z) : Z := z mod modulus.

Definition in_signed (z : Z) : Prop := INT_MIN <= z <= INT_MAX.

End Width.

Definition to_int (z : Z) : Z := Width.wrap_signed z.
Definition to_long (z : Z) : Z := Width.wrap_signed z.
Definition to_ulong (z : Z) : Z := Width.wrap_unsigned z.

(** [abs] of the Arduino core: [((x)>0?(x):-(x))], on [int]. *)
Definition abs_int (x : Z) : Z := if x >? 0 then x else to_int (- x).

(** ** Configuration constants (lines 52, 53, 59) *)

Definition lightAverageWindow : Z := 10.
Definition equalityThreshold : Z := 50.
Definition lightReadInterval : Z := 50.

(** ** The globals of the sketch *)

Record State : Type := mkState {
  currentMovement : Z;          (* int, 0 = neutral, 1 = up, 2 = down *)
  lightValue1 : Z;              (* int *)
  lightValue2 : Z;              (* int *)
  smoothedLight1 : Z;           (* int *)
  smoothedLight2 : Z;           (* int *)
  lastLightReadTime : Z;        (* unsigned long *)
  lightReadings1 : list Z;      (* int[lightAverageWindow] *)
  lightReadings2 : list Z;      (* int[lightAverageWindow] *)
  lightReadIndex : Z;           (* int *)
  lightTotalValue1 : Z;         (* long *)
  lightTotalValue2 : Z          (* long *)
}.

(** Movement codes, as the header comment of the sketch names them. *)
Definition Neutral : Z := 0.
Definition Up : Z := 1.
Definition Down : Z := 2.

(** Array read [a[i]].  Inside the array this is the stored element; a read
    outside the array has no defined result in C++ and the model yields 0
    there. *)
Definition array_get (a : list Z) (i : Z) : Z := default 0 (a !! Z.to_nat i).

(** Array write [a[i] = v]. *)
Definition array_set (a : list Z) (i : Z) (v : Z) : list Z := <[Z.to_nat i := v]> a.

(** Static storage is zero-initialised before [setup] runs. *)
Definition power_on : State :=
  {| currentMovement := 0; lightValue1 := 0; lightValue2 := 0;
     smoothedLight1 := 0; smoothedLight2 := 0; lastLightReadTime := 0;
     lightReadings1 := replicate (Z.to_nat lightAverageWindow) 0;
     lightReadings2 := replicate (Z.to_nat lightAverageWindow) 0;
     lightReadIndex := 0; lightTotalValue1 := 0; lightTotalValue2 := 0 |}.

(** ** initializeLightAverage (lines 69-79) *)

(** The [for] loop of lines 71-74: [n] iterations remain, [i] is the loop
    variable. *)
Fixpoint zero_fill (n : nat) (i : Z) (r1 r2 : list Z) : list Z * list Z :=
  match n with
  | O => (r1, r2)
  | S n' => zero_fill n' (to_int (i + 1)) (array_set r1 i 0) (array_set r2 i 0)
  end.

Definition initializeLightAverage (st : State) : State :=
  let '(r1, r2) :=
    zero_fill (Z.to_nat lightAverageWindow) 0 (lightReadings1 st) (lightReadings2 st) in
  {| currentMovement := currentMovement st;
     lightValue1 := lightValue1 st; lightValue2 := lightValue2 st;
     smoothedLight1 := smoothedLight1 st; smoothedLight2 := smoothedLight2 st;
     lastLightReadTime := lastLightReadTime st;
     lightReadings1 := r1; lightReadings2 := r2;
     lightReadIndex := 0; lightTotalValue1 := 0; lightTotalValue2 := 0 |}.

(** ** updateLightAverage (lines 82-99) *)

Definition updateLightAverage (st : State) (newValue1 newValue2 : Z) : State :=
  let idx := lightReadIndex st in
  (* sensor 1, lines 84-86 *)
  let total1 := to_long (lightTotalValue1 st - array_get (lightReadings1 st) idx) in
  let readings1 := array_set (lightReadings1 st) idx newValue1 in
  let total1 := to_long (total1 + newValue1) in
  (* sensor 2, lines 89-91 *)
  let total2 := to_long (lightTotalValue2 st - array_get (lightReadings2 st) idx) in
  let readings2 := array_set (lightReadings2 st) idx newValue2 in
  let total2 := to_long (total2 + newValue2) in
  (* line 94 *)
  let idx' := to_int (Z.rem (to_int (idx + 1)) lightAverageWindow) in
  (* lines 97-98 *)
  {| currentMovement := currentMovement st;
     lightValue1 := lightValue1 st; lightValue2 := lightValue2 st;
     smoothedLight1 := to_int (Z.quot total1 lightAverageWindow);
     smoothedLight2 := to_int (Z.quot total2 lightAverageWindow);
     lastLightReadTime := lastLightReadTime st;
     lightReadings1 := readings1; lightReadings2 := readings2;
     lightReadIndex := idx';
     lightTotalValue1 := total1; lightTotalValue2 := total2 |}.

(** ** handleInput (lines 102-126) *)

(** The condition of line 105: [currentTime - lastLightReadTime >=
    lightReadInterval], an [unsigned long] subtraction. *)
Definition serviced (st : State) (currentTime : Z) : bool :=
  lightReadInterval <=? to_ulong (currentTime - lastLightReadTime st).

(** Lines 114-121 as a function of the two smoothed values. *)
Definition classify (smoothed1 smoothed2 : Z) : Z :=
  let difference := abs_int (to_int (smoothed1 - smoothed2)) in
  if difference <=? equalityThreshold then 0
  else if smoothed1 >? smoothed2 then 1
  else 2.

(** [currentTime] is what [millis()] returns, [read1] and [read2] what the
    two [analogRead] calls return. *)
Definition handleInput (st : State) (currentTime read1 read2 : Z) : State :=
  if serviced st currentTime then
    let st1 := updateLightAverage
      {| currentMovement := currentMovement st;
         lightValue1 := read1; lightValue2 := read2;
         smoothedLight1 := smoothedLight1 st; smoothedLight2 := smoothedLight2 st;
         lastLightReadTime := lastLightReadTime st;
         lightReadings1 := lightReadings1 st; lightReadings2 := lightReadings2 st;
         lightReadIndex := lightReadIndex st;
         lightTotalValue1 := lightTotalValue1 st;
         lightTotalValue2 := lightTotalValue2 st |} read1 read2 in
    {| currentMovement := classify (smoothedLight1 st1) (smoothedLight2 st1);
       lightValue1 := lightValue1 st1; lightValue2 := lightValue2 st1;
       smoothedLight1 := smoothedLight1 st1; smoothedLight2 := smoothedLight2 st1;
       lastLightReadTime := currentTime;
       lightReadings1 := lightReadings1 st1; lightReadings2 := lightReadings2 st1;
       lightReadIndex := lightReadIndex st1;
       lightTotalValue1 := lightTotalValue1 st1;
       lightTotalValue2 := lightTotalValue2 st1 |}
  else st.

(** What one pass of [loop] exposes: whether [handleInput] took a reading,
    and the movement code handed to [sendMovement] and [updateBuzzer]. *)
Definition tick (st : State) (now raw_left raw_right : Z) : bool * Z * State :=
  let st' := handleInput st now raw_left raw_right in
  (serviced st now, currentMovement st', st').

(** [setup] as far as the core is concerned. *)
Definition setup : State := initializeLightAverage power_on.

(** ** The filter of one channel, as the specification words it

    A fixed-capacity buffer of the last samples, a running sum and a write
    cursor; the arithmetic is that of the 32-bit [long] holding the sum. *)

Module Filter.

Record t : Type := mk {
  samples : list Z;
  running_sum : Z;
  cursor : Z
}.

(** reset: zero-fills the buffer, sum 0, cursor 0. *)
Definition reset : t :=
  {| samples := replicate (Z.to_nat lightAverageWindow) 0;
     running_sum := 0;
     cursor := 0 |}.

(** insert: subtract the value in the cursor slot from the running sum,
    overwrite the slot, add the new sample, advance the cursor modulo the
    window size, return sum / window size. *)
Definition insert (f : t) (new_sample : Z) : Z * t :=
  let slot := Z.to_nat (cursor f) in
  let without_old := to_long (running_sum f - default 0 (samples f !! slot)) in
  let buffer := <[slot := new_sample]> (samples f) in
  let with_new := to_long (without_old + new_sample) in
  let next := (cursor f + 1) mod lightAverageWindow in
  (Z.quot with_new lightAverageWindow,
   {| samples := buffer; running_sum := with_new; cursor := next |}).

(** One operation on a single filter: [None] is reset, [Some v] inserts. *)
Definition step (f : t) (op : option Z) : t :=
  match op with
  | None => reset
  | Some v => snd (insert f v)
  end.

Definition run (f : t) (ops : list (option Z)) : t := fold_left step ops f.

(** The buffer positions an operation writes, in order: reset writes every
    slot once, insert writes the cursor slot. *)
Definition writes_of (f : t) (op : option Z) : list Z :=
  match op with
  | None => map Z.of_nat (seq 0 (Z.to_nat lightAverageWindow))
  | Some _ => [cursor f]
  end.

Fixpoint writes (f : t) (ops : list (option Z)) : list Z :=
  match ops with
  | [] => []
  | op :: rest => writes_of f op ++ writes (step f op) rest
  end.

End Filter.

(** The two channels of the sketch, seen as single filters. *)
Definition channel1 (st : State) : Filter.t :=
  {| Filter.samples := lightReadings1 st;
     Filter.running_sum := lightTotalValue1 st;
     Filter.cursor := lightReadIndex st |}.

Definition channel2 (st : State) : Filter.t :=
  {| Filter.samples := lightReadings2 st;
     Filter.running_sum := lightTotalValue2 st;
     Filter.cursor := lightReadIndex st |}.

(** Operations on the pair of filters, as the sketch offers them. *)
Inductive filter_op : Type :=
  | OpReset
  | OpInsert (newValue1 newValue2 : Z).

Definition apply_op (st : State) (op : filter_op) : State :=
  match op with
  | OpReset => initializeLightAverage st
  | OpInsert v1 v2 => updateLightAverage st v1 v2
  end.

Definition apply_ops (st : State) (ops : list filter_op) : State :=
  fold_left apply_op ops st.

Definition left_op (op : filter_op) : option Z :=
  match op with OpReset => None | OpInsert v1 _ => Some v1 end.

Definition right_op (op : filter_op) : option Z :=
  match op with OpReset => None | OpInsert _ v2 => Some v2 end.

(** The positions an operation writes in [lightReadings1] and in
    [lightReadings2], in order: lines 72 and 73 write at the loop variable,
    lines 85 and 90 at [lightReadIndex]. *)
Definition op_writes (st : State) (op : filter_op) : list Z * list Z :=
  match op with
  | OpReset =>
      let loop := map Z.of_nat (seq 0 (Z.to_nat lightAverageWindow)) in
      (loop, loop)
  | OpInsert _ _ => ([lightReadIndex st], [lightReadIndex st])
  end.

Fixpoint ops_writes (st : State) (ops : list filter_op) : list Z * list Z :=
  match ops with
  | [] => ([], [])
  | op :: rest =>
      let here := op_writes st op in
      let later := ops_writes (apply_op st op) rest in
      (fst here ++ fst later, snd here ++ snd later)
  end.

(** Feeding a sequence of sample pairs to [updateLightAverage]. *)
Definition inserts (st : State) (vs : list (Z * Z)) : State :=
  fold_left (fun s v => updateLightAverage s (fst v) (snd v)) vs st.

(** A sequence of passes of [loop]: the clock and the two readings. *)
Record Pass : Type := mkPass { p_now : Z; p_raw1 : Z; p_raw2 : Z }.

Definition run_passes (st : State) (ps : list Pass) : State :=
  fold_left (fun s p => handleInput s (p_now p) (p_raw1 p) (p_raw2 p)) ps st.

(** The readings of the serviced passes, in the order they were taken. *)
Fixpoint serviced_reads (st : State) (ps : list Pass) : list (Z * Z) :=
  match ps with
  | [] => []
  | p :: rest =>
      let st' := handleInput st (p_now p) (p_raw1 p) (p_raw2 p) in
      if serviced st (p_now p)
      then (p_raw1 p, p_raw2 p) :: serviced_reads st' rest
      else serviced_reads st' rest
  end.

(** ** Predicates used by the statements *)

Definition sumZ (l : list Z) : Z := foldr Z.add 0 l.

(** The arrays have their declared size. *)
Definition array_shape (st : State) : Prop :=
  length (lightReadings1 st) = Z.to_nat lightAverageWindow /\
  length (lightReadings2 st) = Z.to_nat lightAverageWindow.

(** The index points into the arrays. *)
Definition index_ok (st : State) : Prop :=
  0 <= lightReadIndex st < lightAverageWindow.

(** The running sums are the sums of the buffers, as 32-bit [long] values. *)
Definition sums_ok (st : State) : Prop :=
  lightTotalValue1 st = to_long (sumZ (lightReadings1 st)) /\
  lightTotalValue2 st = to_long (sumZ (lightReadings2 st)).

Definition filter_inv (st : State) : Prop :=
  array_shape st /\ index_ok st /\ sums_ok st.

#[global] Instance array_shape_dec st : Decision (array_shape st).
Proof. unfold array_shape. apply _. Defined.

#[global] Instance index_ok_dec st : Decision (index_ok st).
Proof. unfold index_ok. apply _. Defined.

#[global] Instance sums_ok_dec st : Decision (sums_ok st).
Proof. unfold sums_ok. apply _. Defined.

#[global] Instance filter_inv_dec st : Decision (filter_inv st).
Proof. unfold filter_inv. apply _. Defined.

(** The buffer read in circular order from the cursor: oldest sample first. *)
Definition history (buf : list Z) (idx : Z) : list Z :=
  drop (Z.to_nat idx) buf ++ take (Z.to_nat idx) buf.

(** The last [n] elements of a list. *)
Definition lastn {A : Type} (n : nat) (l : list A) : list A :=
  drop (length l - n) l.

(** Largest magnitude a constant sample may have for ten of them to fit a
    [long]: INT_MAX / 10. *)
Definition sample_bound : Z := Z.quot Width.INT_MAX lightAverageWindow.

(** The sample histories of the two channels. *)
Definition history1 (st : State) : list Z :=
  history (lightReadings1 st) (lightReadIndex st).

Definition history2 (st : State) : list Z :=
  history (lightReadings2 st) (lightReadIndex st).

(** The part of the state the rolling average lives in. *)
Definition filters (st : State) : list Z * list Z * Z * Z * Z :=
  (lightReadings1 st, lightReadings2 st, lightReadIndex st,
   lightTotalValue1 st, lightTotalValue2 st).

(** Ten passes 50 ms apart, all with the same two readings. *)
Definition steady_passes (raw1 raw2 : Z) : list Pass :=
  map (fun k => mkPass (50 * Z.of_nat k) raw1 raw2) (seq 1 10).

(** ** loop (lines 145-157)

    The calls [loop] makes into the BLE and buzzer headers, with the
    argument each receives.  Those functions receive [currentMovement] by
    value and are declared before the globals of the sketch, so they do not
    touch the state modelled here. *)
Inductive Call : Type :=
  | CallUpdateBLE
  | CallSendMovement (movement : Z)
  | CallUpdateBuzzer (movement : Z).

Definition loop (st : State) (currentTime read1 read2 : Z) : State * list Call :=
  let st' := handleInput st currentTime read1 read2 in
  (st', [CallUpdateBLE;
         CallSendMovement (currentMovement st');
         CallUpdateBuzzer (currentMovement st')]).

(** Repeated passes of [loop], collecting the calls in order. *)
Fixpoint run_loop (st : State) (ps : list Pass) : State * list Call :=
  match ps with
  | [] => (st, [])
  | p :: rest =>
      let '(st', calls) := loop st (p_now p) (p_raw1 p) (p_raw2 p) in
      let '(st'', later) := run_loop st' rest in
      (st'', calls ++ later)
  end.

(** The movement codes the sketch documents (lines 13-16). *)
Definition valid_movement (m : Z) : Prop := m = Neutral \/ m = Up \/ m = Down.

Definition call_ok (c : Call) : Prop :=
  match c with
  | CallUpdateBLE => True
  | CallSendMovement m => valid_movement m
  | CallUpdateBuzzer m => valid_movement m
  end.

(** The clock values of the serviced passes, in order. *)
Fixpoint serviced_times (st : State) (ps : list Pass) : list Z :=
  match ps with
  | [] => []
  | p :: rest =>
      let st' := handleInput st (p_now p) (p_raw1 p) (p_raw2 p) in
      if serviced st (p_now p)
      then p_now p :: serviced_times st' rest
      else serviced_times st' rest
  end.

(** Each time is at least the read interval after the one before it, as an
    unsigned 32-bit difference. *)
Fixpoint spaced (prev : Z) (times : list Z) : Prop :=
  match times with
  | [] => True
  | t :: rest => lightReadInterval <= to_ulong (t - prev) /\ spaced t rest
  end.

(** The same with the plain difference. *)
Fixpoint spaced_plain (prev : Z) (times : list Z) : Prop :=
  match times with
  | [] => True
  | t :: rest => lightReadInterval <= t - prev /\ spaced_plain t rest
  end.

(** A clock that starts at [from] or later, never runs backwards and stays
    below 2^32. *)
Fixpoint clock_monotone (from : Z) (ps : list Pass) : Prop :=
  match ps with
  | [] => True
  | p :: rest => from <= p_now p < 2 ^ 32 /\ clock_monotone (p_now p) rest
  end.

(** Exchanging Up and Down. *)
Definition mirror (m : Z) : Z :=
  if m =? 1 then 2 else if m =? 2 then 1 else m.

(** The sketch with the two sensors exchanged. *)
Definition swap_channels (st : State) : State :=
  {| currentMovement := mirror (currentMovement st);
     lightValue1 := lightValue2 st; lightValue2 := lightValue1 st;
     smoothedLight1 := smoothedLight2 st; smoothedLight2 := smoothedLight1 st;
     lastLightReadTime := lastLightReadTime st;
     lightReadings1 := lightReadings2 st; lightReadings2 := lightReadings1 st;
     lightReadIndex := lightReadIndex st;
     lightTotalValue1 := lightTotalValue2 st;
     lightTotalValue2 := lightTotalValue1 st |}.

(** A pass with the two readings exchanged. *)
Definition swap_pass (p : Pass) : Pass := mkPass (p_now p) (p_raw2 p) (p_raw1 p).

(** Both channels hold the same samples and the same sum. *)
Definition balanced (st : State) : Prop :=
  lightReadings1 st = lightReadings2 st /\
  lightTotalValue1 st = lightTotalValue2 st.

(** The smoothed values and the movement code are the ones the current
    sums give. *)
Definition coherent (st : State) : Prop :=
  smoothedLight1 st = Z.quot (lightTotalValue1 st) lightAverageWindow /\
  smoothedLight2 st = Z.quot (lightTotalValue2 st) lightAverageWindow /\
  currentMovement st = classify (smoothedLight1 st) (smoothedLight2 st).

(** All entries of a buffer lie between two values. *)
Definition within (lo hi : Z) (buf : list Z) : Prop :=
  Forall (fun x => lo <= x <= hi) buf.

(** The passes of a run that are serviced. *)
Fixpoint serviced_passes (st : State) (ps : list Pass) : list Pass :=
  match ps with
  | [] => []
  | p :: rest =>
      let st' := handleInput st (p_now p) (p_raw1 p) (p_raw2 p) in
      if serviced st (p_now p)
      then p :: serviced_passes st' rest
      else serviced_passes st' rest
  end.

(** Nineteen distinct pairs of readings, (100,200), (101,201), ...: after
    them every slot is occupied by a non-zero sample and the index is 9. *)
Definition rising_reads : list (Z * Z) :=
  map (fun k => (100 + Z.of_nat k, 200 + Z.of_nat k)) (seq 0 19).

(** ** Facts about the fixed-width arithmetic *)

Section WidthFacts.

Import Width.

Lemma modulus_value : modulus = 4294967296.
Proof. reflexivity. Qed.

Lemma half_value : half = 2147483648.
Proof. reflexivity. Qed.

Lemma wrap_signed_range z : in_signed (wrap_signed z).
Proof.
  unfold in_signed, wrap_signed, INT_MIN, INT_MAX.
  rewrite modulus_value, half_value.
  pose proof (Z.mod_pos_bound (z + 2147483648) 4294967296). lia.
Qed.

Lemma wrap_signed_id z : in_signed z -> wrap_signed z = z.
Proof.
  unfold in_signed, wrap_signed, INT_MIN, INT_MAX.
  rewrite modulus_value, half_value. intros Hz.
  rewrite Z.mod_small; lia.
Qed.

Lemma wrap_signed_add_l a b : wrap_signed (wrap_signed a + b) = wrap_signed (a + b).
Proof.
  unfold wrap_signed. f_equal.
  replace ((a + half) mod modulus - half + b + half)
    with ((a + half) mod modulus + b) by lia.
  rewrite Zplus_mod_idemp_l. f_equal. lia.
Qed.

(** The reduced value differs from the exact one by a multiple of 2^32. *)
Lemma wrap_signed_multiple z : exists k, wrap_signed z = z - k * modulus.
Proof.
  exists ((z + half) / modulus). unfold wrap_signed.
  rewrite Z.mod_eq by (rewrite modulus_value; lia). lia.
Qed.

Lemma quot_window_bound z :
  in_signed z -> - sample_bound <= Z.quot z lightAverageWindow <= sample_bound.
Proof.
  unfold in_signed, INT_MIN, INT_MAX. rewrite half_value.
  change sample_bound with 214748364. change lightAverageWindow with 10.
  intros Hz.
  destruct (Z_le_gt_dec 0 z).
  - pose proof (Z.mul_quot_le z 10). lia.
  - pose proof (Z.mul_quot_ge z 10). lia.
Qed.

Lemma sample_bound_signed z : - sample_bound <= z <= sample_bound -> in_signed z.
Proof.
  unfold in_signed, INT_MIN, INT_MAX. rewrite half_value.
  change sample_bound with 214748364. lia.
Qed.

End WidthFacts.

(** ** Facts about sums, array updates and the circular history *)

Section ListFacts.

Lemma sumZ_app (a b : list Z) : sumZ (a ++ b) = sumZ a + sumZ b.
Proof. induction a as [|x a IH]; simpl; [reflexivity | rewrite IH; lia]. Qed.

Lemma sumZ_replicate n (v : Z) : sumZ (replicate n v) = Z.of_nat n * v.
Proof. induction n as [|n IH]; [reflexivity |]. simpl sumZ. rewrite IH. lia. Qed.

(** Overwriting a slot changes the sum by the difference of the values. *)
Lemma sumZ_array_set (a : list Z) (i v : Z) :
  (Z.to_nat i < length a)%nat ->
  sumZ (array_set a i v) = sumZ a - array_get a i + v.
Proof.
  unfold array_set, array_get. intros Hi.
  destruct (lookup_lt_is_Some_2 a (Z.to_nat i) Hi) as [old Hold].
  rewrite Hold. simpl.
  rewrite insert_take_drop by exact Hi.
  rewrite <- (take_drop (Z.to_nat i) a) at 3.
  rewrite (drop_S a old (Z.to_nat i) Hold).
  rewrite !sumZ_app. simpl. lia.
Qed.

Lemma sumZ_bounded (a : list Z) (lo hi : Z) :
  Forall (fun x => lo <= x <= hi) a ->
  Z.of_nat (length a) * lo <= sumZ a <= Z.of_nat (length a) * hi.
Proof.
  induction 1 as [|x a Hx _ IH]; simpl; [lia |].
  change (sumZ (x :: a)) with (x + sumZ a). lia.
Qed.

Lemma sumZ_history (buf : list Z) (idx : Z) : sumZ (history buf idx) = sumZ buf.
Proof.
  unfold history. rewrite sumZ_app, Z.add_comm, <- sumZ_app.
  now rewrite take_drop.
Qed.

Lemma history_length (buf : list Z) (idx : Z) : length (history buf idx) = length buf.
Proof.
  unfold history. rewrite length_app, length_drop, length_take. lia.
Qed.

(** An insert drops the oldest entry of the history and appends the new
    sample. *)
Lemma history_array_set (buf : list Z) (idx v : Z) :
  0 <= idx < Z.of_nat (length buf) ->
  history (array_set buf idx v) ((idx + 1) mod Z.of_nat (length buf))
  = drop 1 (history buf idx) ++ [v].
Proof.
  intros Hidx. unfold history, array_set.
  set (i := Z.to_nat idx).
  assert (i < length buf)%nat as Hi by (subst i; lia).
  destruct (lookup_lt_is_Some_2 buf i Hi) as [old Hold].
  rewrite (drop_S buf old i Hold). simpl. rewrite drop_0.
  destruct (Z.eq_dec (idx + 1) (Z.of_nat (length buf))) as [Hwrap|Hnowrap].
  - rewrite Hwrap, Z.mod_same by lia. simpl. rewrite drop_0.
    rewrite insert_take_drop by exact Hi.
    rewrite (drop_ge buf (S i)) by (subst i; lia).
    now rewrite app_nil_r.
  - rewrite Z.mod_small by lia.
    replace (Z.to_nat (idx + 1)) with (S i) by (subst i; lia).
    rewrite drop_insert_lt by lia.
    rewrite (take_S_r (<[i:=v]> buf) i v)
      by (apply list_lookup_insert_eq; exact Hi).
    rewrite take_insert_ge by lia.
    now rewrite app_assoc.
Qed.

Lemma lastn_app_exact {A : Type} (n : nat) (a b : list A) :
  length b = n -> lastn n (a ++ b) = b.
Proof.
  intros Hb. unfold lastn. rewrite length_app, Hb.
  replace (length a + n - n)%nat with (length a) by lia.
  apply drop_app_length.
Qed.

Lemma lastn_length {A : Type} (n : nat) (l : list A) :
  (n <= length l)%nat -> length (lastn n l) = n.
Proof. intros Hn. unfold lastn. rewrite length_drop. lia. Qed.

Lemma lastn_all {A : Type} (n : nat) (l : list A) :
  length l = n -> lastn n l = l.
Proof. intros Hn. unfold lastn. rewrite Hn, Nat.sub_diag. apply drop_0. Qed.

Lemma lastn_app_long {A : Type} (n : nat) (a b : list A) :
  (n <= length b)%nat -> lastn n (a ++ b) = lastn n b.
Proof.
  intros Hn. unfold lastn. rewrite length_app, drop_app_ge by lia.
  f_equal. lia.
Qed.

(** Dropping the head of a list longer than [n] keeps its last [n]. *)
Lemma lastn_drop_head {A : Type} (n : nat) (l : list A) :
  (n < length l)%nat -> lastn n (drop 1 l) = lastn n l.
Proof.
  intros Hn. unfold lastn. rewrite drop_drop, length_drop. f_equal. lia.
Qed.

Lemma zero_fill_spec n k (r1 r2 : list Z) :
  Z.of_nat (k + n) <= Width.INT_MAX ->
  length r1 = (k + n)%nat -> length r2 = (k + n)%nat ->
  zero_fill n (Z.of_nat k) r1 r2
  = (take k r1 ++ replicate n 0, take k r2 ++ replicate n 0).
Proof.
  revert k r1 r2. induction n as [|n IH]; intros k r1 r2 Hmax H1 H2.
  - simpl. rewrite !app_nil_r, !take_ge by lia. reflexivity.
  - simpl zero_fill.
    assert (to_int (Z.of_nat k + 1) = Z.of_nat (S k)) as ->.
    { unfold to_int. rewrite wrap_signed_id; [lia |].
      unfold Width.in_signed, Width.INT_MIN, Width.INT_MAX in *.
      rewrite half_value in *. lia. }
    unfold array_set. rewrite Nat2Z.id.
    rewrite IH by (rewrite ?length_insert; lia).
    rewrite !(take_S_r _ k 0) by (apply list_lookup_insert_eq; lia).
    rewrite !take_insert_ge by lia.
    rewrite <- !app_assoc. reflexivity.
Qed.

End ListFacts.

(** ** Facts about the filter code *)

Section FilterFacts.

Lemma window_value : lightAverageWindow = 10.
Proof. reflexivity. Qed.

Lemma window_nat : Z.to_nat lightAverageWindow = 10%nat.
Proof. reflexivity. Qed.

Lemma to_long_range z : Width.in_signed (to_long z).
Proof. apply wrap_signed_range. Qed.

(** The quotient of a [long] by the window size fits an [int] unchanged. *)
Lemma to_int_quot_long z :
  to_int (Z.quot (to_long z) lightAverageWindow) = Z.quot (to_long z) lightAverageWindow.
Proof.
  apply wrap_signed_id, sample_bound_signed, quot_window_bound, to_long_range.
Qed.

(** Line 94 on an index inside the array. *)
Lemma next_index idx :
  0 <= idx < lightAverageWindow ->
  to_int (Z.rem (to_int (idx + 1)) lightAverageWindow) = (idx + 1) mod lightAverageWindow.
Proof.
  rewrite window_value. intros Hidx. unfold to_int.
  assert (forall z, 0 <= z <= 10 -> Width.wrap_signed z = z) as Hsmall.
  { intros z Hz. apply wrap_signed_id.
    unfold Width.in_signed, Width.INT_MIN, Width.INT_MAX.
    rewrite half_value. lia. }
  rewrite (Hsmall (idx + 1)) by lia.
  rewrite Z.rem_mod_nonneg by lia.
  apply Hsmall. pose proof (Z.mod_pos_bound (idx + 1) 10). lia.
Qed.

Lemma update_smoothed1 st v1 v2 :
  smoothedLight1 (updateLightAverage st v1 v2)
  = Z.quot (lightTotalValue1 (updateLightAverage st v1 v2)) lightAverageWindow.
Proof. simpl. apply to_int_quot_long. Qed.

Lemma update_smoothed2 st v1 v2 :
  smoothedLight2 (updateLightAverage st v1 v2)
  = Z.quot (lightTotalValue2 (updateLightAverage st v1 v2)) lightAverageWindow.
Proof. simpl. apply to_int_quot_long. Qed.

Lemma update_smoothed_bounds st v1 v2 :
  - sample_bound <= smoothedLight1 (updateLightAverage st v1 v2) <= sample_bound /\
  - sample_bound <= smoothedLight2 (updateLightAverage st v1 v2) <= sample_bound.
Proof.
  rewrite update_smoothed1, update_smoothed2.
  split; apply quot_window_bound; simpl; apply to_long_range.
Qed.

(** Each channel of [updateLightAverage] is one [Filter.insert]. *)
Lemma update_channel1 st v1 v2 :
  index_ok st ->
  (smoothedLight1 (updateLightAverage st v1 v2), channel1 (updateLightAverage st v1 v2))
  = Filter.insert (channel1 st) v1.
Proof.
  intros Hidx. unfold Filter.insert, channel1. simpl.
  rewrite to_int_quot_long, (next_index _ Hidx). reflexivity.
Qed.

Lemma update_channel2 st v1 v2 :
  index_ok st ->
  (smoothedLight2 (updateLightAverage st v1 v2), channel2 (updateLightAverage st v1 v2))
  = Filter.insert (channel2 st) v2.
Proof.
  intros Hidx. unfold Filter.insert, channel2. simpl.
  rewrite to_int_quot_long, (next_index _ Hidx). reflexivity.
Qed.

Lemma update_index st v1 v2 :
  index_ok st ->
  lightReadIndex (updateLightAverage st v1 v2)
  = (lightReadIndex st + 1) mod lightAverageWindow.
Proof. intros Hidx. simpl. apply (next_index _ Hidx). Qed.

Lemma update_index_ok st v1 v2 :
  index_ok st -> index_ok (updateLightAverage st v1 v2).
Proof.
  intros Hidx. unfold index_ok. rewrite (update_index _ _ _ Hidx).
  apply Z.mod_pos_bound. reflexivity.
Qed.

Lemma update_shape st v1 v2 :
  array_shape st -> array_shape (updateLightAverage st v1 v2).
Proof.
  intros [H1 H2]. split; simpl; unfold array_set; now rewrite length_insert.
Qed.

(** The new running sum is the old one minus the overwritten value plus
    the new one, reduced once. *)
Lemma total_step total old v :
  to_long (to_long (total - old) + v) = to_long (total - old + v).
Proof. apply wrap_signed_add_l. Qed.

Lemma sum_step (buf : list Z) idx v :
  length buf = Z.to_nat lightAverageWindow ->
  0 <= idx < lightAverageWindow ->
  to_long (to_long (to_long (sumZ buf) - array_get buf idx) + v)
  = to_long (sumZ (array_set buf idx v)).
Proof.
  intros Hlen Hidx. rewrite sumZ_array_set by lia.
  unfold to_long. rewrite wrap_signed_add_l.
  replace (Width.wrap_signed (sumZ buf) - array_get buf idx + v)
    with (Width.wrap_signed (sumZ buf) + (- array_get buf idx + v)) by lia.
  rewrite wrap_signed_add_l. f_equal. lia.
Qed.

Lemma update_sums_ok st v1 v2 :
  filter_inv st -> sums_ok (updateLightAverage st v1 v2).
Proof.
  intros [[H1 H2] [Hidx [S1 S2]]]. split; simpl.
  - rewrite S1. now apply sum_step.
  - rewrite S2. now apply sum_step.
Qed.

Lemma update_inv st v1 v2 :
  filter_inv st -> filter_inv (updateLightAverage st v1 v2).
Proof.
  intros Hinv. pose proof Hinv as [Hs [Hi _]].
  repeat split; try (now apply update_shape); try (now apply update_index_ok);
    now apply update_sums_ok.
Qed.

Lemma initialize_readings st :
  array_shape st ->
  lightReadings1 (initializeLightAverage st) = replicate (Z.to_nat lightAverageWindow) 0 /\
  lightReadings2 (initializeLightAverage st) = replicate (Z.to_nat lightAverageWindow) 0.
Proof.
  intros [H1 H2]. unfold initializeLightAverage.
  pose proof (zero_fill_spec (Z.to_nat lightAverageWindow) 0
                (lightReadings1 st) (lightReadings2 st)) as Hfill.
  change (Z.of_nat 0) with 0 in Hfill.
  rewrite Hfill; [simpl; split; reflexivity | | exact H1 | exact H2].
  rewrite window_nat. unfold Width.INT_MAX. rewrite half_value. lia.
Qed.

Lemma initialize_inv st : array_shape st -> filter_inv (initializeLightAverage st).
Proof.
  intros Hs. destruct (initialize_readings st Hs) as [R1 R2].
  unfold filter_inv, array_shape, index_ok, sums_ok. rewrite R1, R2.
  rewrite !length_replicate, !sumZ_replicate.
  unfold initializeLightAverage.
  destruct (zero_fill _ _ _ _). simpl. repeat split; try reflexivity; lia.
Qed.

Lemma inserts_inv st vs : filter_inv st -> filter_inv (inserts st vs).
Proof.
  revert st. induction vs as [|v vs IH]; intros st Hinv; [exact Hinv |].
  apply IH, update_inv, Hinv.
Qed.

Lemma inserts_snoc st vs v :
  inserts st (vs ++ [v]) = updateLightAverage (inserts st vs) (fst v) (snd v).
Proof. unfold inserts. now rewrite fold_left_app. Qed.

End FilterFacts.

(** ** Facts about histories and runs *)

Section RunFacts.

Lemma history1_length st :
  array_shape st -> length (history1 st) = Z.to_nat lightAverageWindow.
Proof. intros [H1 _]. unfold history1. now rewrite history_length. Qed.

Lemma history2_length st :
  array_shape st -> length (history2 st) = Z.to_nat lightAverageWindow.
Proof. intros [_ H2]. unfold history2. now rewrite history_length. Qed.

Lemma update_history1 st v1 v2 :
  array_shape st -> index_ok st ->
  history1 (updateLightAverage st v1 v2) = drop 1 (history1 st) ++ [v1].
Proof.
  intros [H1 _] Hidx. unfold history1.
  rewrite (update_index _ _ _ Hidx). simpl lightReadings1.
  rewrite <- history_array_set by (rewrite H1; exact Hidx).
  now rewrite H1.
Qed.

Lemma update_history2 st v1 v2 :
  array_shape st -> index_ok st ->
  history2 (updateLightAverage st v1 v2) = drop 1 (history2 st) ++ [v2].
Proof.
  intros [_ H2] Hidx. unfold history2.
  rewrite (update_index _ _ _ Hidx). simpl lightReadings2.
  rewrite <- history_array_set by (rewrite H2; exact Hidx).
  now rewrite H2.
Qed.

(** Sliding a full window over appended samples. *)
Lemma lastn_slide (n : nat) (h : list Z) (v : Z) (rest : list Z) :
  length h = n -> (0 < n)%nat ->
  lastn n ((drop 1 h ++ [v]) ++ rest) = lastn n (h ++ v :: rest).
Proof.
  intros Hh Hn. destruct h as [|x h]; [simpl in Hh; lia |].
  simpl drop. rewrite drop_0, <- app_assoc. simpl.
  apply (lastn_drop_head n (x :: h ++ v :: rest)).
  cbn [length] in *. rewrite length_app. cbn [length]. lia.
Qed.

Lemma inserts_history1 st vs :
  array_shape st -> index_ok st ->
  history1 (inserts st vs)
  = lastn (Z.to_nat lightAverageWindow) (history1 st ++ map fst vs).
Proof.
  revert st. induction vs as [|v vs IH]; intros st Hs Hi.
  - simpl. rewrite app_nil_r, lastn_all; [reflexivity | now apply history1_length].
  - change (inserts st (v :: vs))
      with (inserts (updateLightAverage st (fst v) (snd v)) vs).
    rewrite IH by (now apply update_shape || now apply update_index_ok).
    rewrite (update_history1 _ _ _ Hs Hi). simpl map.
    apply lastn_slide; [now apply history1_length | rewrite window_nat; lia].
Qed.

Lemma inserts_history2 st vs :
  array_shape st -> index_ok st ->
  history2 (inserts st vs)
  = lastn (Z.to_nat lightAverageWindow) (history2 st ++ map snd vs).
Proof.
  revert st. induction vs as [|v vs IH]; intros st Hs Hi.
  - simpl. rewrite app_nil_r, lastn_all; [reflexivity | now apply history2_length].
  - change (inserts st (v :: vs))
      with (inserts (updateLightAverage st (fst v) (snd v)) vs).
    rewrite IH by (now apply update_shape || now apply update_index_ok).
    rewrite (update_history2 _ _ _ Hs Hi). simpl map.
    apply lastn_slide; [now apply history2_length | rewrite window_nat; lia].
Qed.

(** Under the invariant the running sums are the sums of the histories. *)
Lemma inv_total1 st :
  filter_inv st -> lightTotalValue1 st = to_long (sumZ (history1 st)).
Proof. intros (_ & _ & S1 & _). unfold history1. now rewrite sumZ_history. Qed.

Lemma inv_total2 st :
  filter_inv st -> lightTotalValue2 st = to_long (sumZ (history2 st)).
Proof. intros (_ & _ & _ & S2). unfold history2. now rewrite sumZ_history. Qed.

(** The smoothed values after at least one insert, from the histories. *)
Lemma inserts_smoothed1 st vs v :
  filter_inv st ->
  smoothedLight1 (inserts st (vs ++ [v]))
  = Z.quot (to_long (sumZ (history1 (inserts st (vs ++ [v]))))) lightAverageWindow.
Proof.
  intros Hinv. rewrite <- inv_total1 by now apply inserts_inv.
  rewrite inserts_snoc. apply update_smoothed1.
Qed.

Lemma inserts_smoothed2 st vs v :
  filter_inv st ->
  smoothedLight2 (inserts st (vs ++ [v]))
  = Z.quot (to_long (sumZ (history2 (inserts st (vs ++ [v]))))) lightAverageWindow.
Proof.
  intros Hinv. rewrite <- inv_total2 by now apply inserts_inv.
  rewrite inserts_snoc. apply update_smoothed2.
Qed.

(** [updateLightAverage] reads and writes the filters only. *)
Lemma update_filters a b v1 v2 :
  filters a = filters b ->
  filters (updateLightAverage a v1 v2) = filters (updateLightAverage b v1 v2).
Proof.
  unfold filters. intros H. injection H as R1 R2 I T1 T2. simpl.
  now rewrite R1, R2, I, T1, T2.
Qed.

Lemma handle_filters st now r1 r2 :
  serviced st now = true ->
  filters (handleInput st now r1 r2) = filters (updateLightAverage st r1 r2).
Proof. intros Hs. unfold handleInput. rewrite Hs. reflexivity. Qed.

Lemma handle_closed st now r1 r2 :
  serviced st now = false -> handleInput st now r1 r2 = st.
Proof. intros Hs. unfold handleInput. now rewrite Hs. Qed.

Lemma inserts_filters a b vs :
  filters a = filters b -> filters (inserts a vs) = filters (inserts b vs).
Proof.
  revert a b. induction vs as [|v vs IH]; intros a b H; [exact H |].
  apply IH, update_filters, H.
Qed.

(** The filters after a run of passes are those after inserting the
    readings of the serviced passes. *)
Lemma run_passes_filters st ps :
  filters (run_passes st ps) = filters (inserts st (serviced_reads st ps)).
Proof.
  revert st. induction ps as [|p ps IH]; intros st; [reflexivity |].
  change (run_passes st (p :: ps))
    with (run_passes (handleInput st (p_now p) (p_raw1 p) (p_raw2 p)) ps).
  rewrite IH. simpl serviced_reads.
  destruct (serviced st (p_now p)) eqn:Hs.
  - apply (inserts_filters _ (updateLightAverage st (p_raw1 p) (p_raw2 p))).
    now apply handle_filters.
  - now rewrite handle_closed.
Qed.

Lemma filters_history1 a b : filters a = filters b -> history1 a = history1 b.
Proof.
  unfold filters, history1. intros H. injection H as R1 _ I _ _. now rewrite R1, I.
Qed.

Lemma filters_history2 a b : filters a = filters b -> history2 a = history2 b.
Proof.
  unfold filters, history2. intros H. injection H as _ R2 I _ _. now rewrite R2, I.
Qed.

End RunFacts.

(** ** Facts about the classifier *)

Section ClassifierFacts.

(** On values the filter can produce, the 32-bit difference and [abs] are
    the exact ones. *)
Lemma difference_exact s1 s2 :
  - sample_bound <= s1 <= sample_bound ->
  - sample_bound <= s2 <= sample_bound ->
  abs_int (to_int (s1 - s2)) = Z.abs (s1 - s2).
Proof.
  change sample_bound with 214748364. intros H1 H2.
  assert (forall z, - 429496728 <= z <= 429496728 -> to_int z = z) as Hid.
  { intros z Hz. apply wrap_signed_id.
    unfold Width.in_signed, Width.INT_MIN, Width.INT_MAX.
    rewrite half_value. lia. }
  rewrite (Hid (s1 - s2)) by lia.
  unfold abs_int. destruct (Z.gtb_spec (s1 - s2) 0); [lia |].
  rewrite Hid by lia. lia.
Qed.

Lemma classify_exact s1 s2 :
  - sample_bound <= s1 <= sample_bound ->
  - sample_bound <= s2 <= sample_bound ->
  classify s1 s2
  = if Z.abs (s1 - s2) <=? equalityThreshold then Neutral
    else if s1 >? s2 then Up else Down.
Proof.
  intros H1 H2. unfold classify. now rewrite difference_exact.
Qed.

Lemma handle_serviced st now r1 r2 :
  serviced st now = true ->
  let st1 := updateLightAverage st r1 r2 in
  smoothedLight1 (handleInput st now r1 r2) = smoothedLight1 st1 /\
  smoothedLight2 (handleInput st now r1 r2) = smoothedLight2 st1 /\
  currentMovement (handleInput st now r1 r2)
  = classify (smoothedLight1 st1) (smoothedLight2 st1) /\
  lastLightReadTime (handleInput st now r1 r2) = now.
Proof. intros Hs. unfold handleInput. rewrite Hs. simpl. auto. Qed.

Lemma serviced_spec st now :
  serviced st now = true
  <-> lightReadInterval <= (now - lastLightReadTime st) mod 2 ^ 32.
Proof. unfold serviced. apply Z.leb_le. Qed.

Lemma not_serviced_spec st now :
  serviced st now = false
  <-> (now - lastLightReadTime st) mod 2 ^ 32 < lightReadInterval.
Proof. unfold serviced. apply Z.leb_gt. Qed.

End ClassifierFacts.

(** * The claims *)

(** C1: on every serviced tick the movement code is decided by
    diff = |smoothed_left - smoothed_right| on the two values the filters
    just produced, which is what the 32-bit [difference] of line 114 holds: Neutral when diff <= threshold (the boundary included),
    Up when diff > threshold and left > right, Down when diff > threshold
    and left < right; with the threshold 50 the pairs (700,500), (500,700),
    (520,500) and (550,600) give Up, Down, Neutral and Neutral, and ten
    serviced passes with constant readings reach the first three pairs. *)
Theorem classifier_dead_band (st : State) (now raw_left raw_right : Z) :
  serviced st now = true ->
  let st' := handleInput st now raw_left raw_right in
  let s1 := smoothedLight1 st' in
  let s2 := smoothedLight2 st' in
  let diff := Z.abs (s1 - s2) in
  (s1 = smoothedLight1 (updateLightAverage st raw_left raw_right) /\
   s2 = smoothedLight2 (updateLightAverage st raw_left raw_right)) /\
  tick st now raw_left raw_right = (true, currentMovement st', st') /\
  abs_int (to_int (s1 - s2)) = diff /\
  (diff <= equalityThreshold -> currentMovement st' = Neutral) /\
  (diff > equalityThreshold -> s1 > s2 -> currentMovement st' = Up) /\
  (diff > equalityThreshold -> s1 < s2 -> currentMovement st' = Down) /\
  (equalityThreshold = 50 /\
   classify 700 500 = Up /\ classify 500 700 = Down /\
   classify 520 500 = Neutral /\ classify 550 600 = Neutral) /\
  (let reached raw1 raw2 :=
     let st10 := run_passes setup (steady_passes raw1 raw2) in
     (smoothedLight1 st10, smoothedLight2 st10, currentMovement st10) in
   reached 700 500 = (700, 500, Up) /\
   reached 500 700 = (500, 700, Down) /\
   reached 520 500 = (520, 500, Neutral)).
Proof.
  intros Hs st' s1 s2 diff.
  destruct (handle_serviced st now raw_left raw_right Hs) as (E1 & E2 & Em & _).
  destruct (update_smoothed_bounds st raw_left raw_right) as [B1 B2].
  fold st' in E1, E2, Em. fold s1 in E1. fold s2 in E2.
  assert (currentMovement st'
          = if diff <=? equalityThreshold then Neutral
            else if s1 >? s2 then Up else Down) as Hm.
  { rewrite Em, <- E1, <- E2. subst diff.
    apply classify_exact; [rewrite E1 | rewrite E2]; assumption. }
  split; [split; assumption |].
  split; [unfold tick; fold st'; now rewrite Hs |].
  split; [apply difference_exact; [rewrite E1 | rewrite E2]; assumption |].
  split; [| split; [| split; [| split]]].
  - intros Hd. rewrite Hm.
    destruct (Z.leb_spec diff equalityThreshold); [reflexivity | lia].
  - intros Hd Hgt. rewrite Hm.
    destruct (Z.leb_spec diff equalityThreshold); [lia |].
    destruct (Z.gtb_spec s1 s2); [reflexivity | lia].
  - intros Hd Hlt. rewrite Hm.
    destruct (Z.leb_spec diff equalityThreshold); [lia |].
    destruct (Z.gtb_spec s1 s2); [lia | reflexivity].
  - repeat split; reflexivity.
  - repeat split; vm_compute; reflexivity.
Qed.

(** The three branches of C1 taken by the first reading after [setup]:
    smoothed (100,20), (20,100) and (52,50). *)
Lemma classifier_dead_band_witness :
  serviced setup 50 = true /\
  currentMovement (handleInput setup 50 1000 200) = Up /\
  currentMovement (handleInput setup 50 200 1000) = Down /\
  currentMovement (handleInput setup 50 520 500) = Neutral.
Proof.
  split; [reflexivity |]. split; [| split].
  - destruct (classifier_dead_band setup 50 1000 200 eq_refl) as (_ & _ & _ & _ & H & _).
    apply H; vm_compute; reflexivity.
  - destruct (classifier_dead_band setup 50 200 1000 eq_refl) as (_ & _ & _ & _ & _ & H & _).
    apply H; vm_compute; reflexivity.
  - destruct (classifier_dead_band setup 50 520 500 eq_refl) as (_ & _ & _ & H & _).
    apply H; vm_compute; discriminate.
Defined.

(** C2, as the code has it: a call whose elapsed time, taken as the
    unsigned 32-bit difference now - last_tick_time, is below the interval
    returns the state it was given (movement code, buffers, sums, cursor and
    last tick time alike) and reports serviced = false with the held
    movement code; and a call that follows a serviced call by less than the
    interval is such a call. *)
Theorem gate_closed_no_change (st : State) (now raw_left raw_right : Z) :
  (to_ulong (now - lastLightReadTime st) < lightReadInterval ->
   handleInput st now raw_left raw_right = st /\
   tick st now raw_left raw_right = (false, currentMovement st, st)) /\
  (forall now2 raw_left2 raw_right2,
     serviced st now = true ->
     to_ulong (now2 - now) < lightReadInterval ->
     let st1 := handleInput st now raw_left raw_right in
     filters (handleInput st1 now2 raw_left2 raw_right2) = filters st1 /\
     tick st1 now2 raw_left2 raw_right2 = (false, currentMovement st1, st1)).
Proof.
  assert (forall s t l r, to_ulong (t - lastLightReadTime s) < lightReadInterval ->
            handleInput s t l r = s /\ tick s t l r = (false, currentMovement s, s)) as Hgate.
  { intros s t l r Hlt.
    assert (serviced s t = false) as Hs by (apply not_serviced_spec; exact Hlt).
    unfold tick. rewrite (handle_closed _ _ _ _ Hs), Hs. auto. }
  split; [apply Hgate |].
  intros now2 l2 r2 Hs Hlt st1.
  assert (lastLightReadTime st1 = now) as Hlast
    by (apply (handle_serviced st now raw_left raw_right Hs)).
  destruct (Hgate st1 now2 l2 r2) as [Hsame Htick]; [now rewrite Hlast |].
  now rewrite Hsame.
Qed.

Lemma gate_closed_no_change_witness :
  handleInput setup 49 1000 200 = setup /\
  (let st1 := handleInput setup 50 1000 200 in
   tick st1 99 300 400 = (false, currentMovement st1, st1)).
Proof.
  split.
  - apply (gate_closed_no_change setup 49 1000 200). vm_compute. reflexivity.
  - destruct (gate_closed_no_change setup 50 1000 200) as [_ H].
    apply (H 99 300 400); vm_compute; reflexivity.
Defined.

(** C2 as stated fails when the first of the two calls was itself not
    serviced: after [setup] the calls at 30 ms and 60 ms are 30 ms apart,
    yet the second one is serviced and changes buffer and movement code. *)
Lemma two_close_calls_counterexample :
  let st1 := handleInput setup 30 1000 200 in
  let st2 := handleInput st1 60 1000 200 in
  60 - 30 < lightReadInterval /\
  fst (fst (tick st1 60 1000 200)) = true /\
  lightReadings1 st2 <> lightReadings1 st1 /\
  currentMovement st2 <> currentMovement st1.
Proof. vm_compute. repeat split; discriminate. Qed.

(** C3: for every filter state whose cursor points into the buffer and
    every pair of samples, [updateLightAverage] is, on each channel, the
    insert of the specification: it subtracts the value in the cursor slot
    from the running sum, overwrites that slot with the new sample, adds the
    new sample to the sum, advances the cursor modulo the window size and
    yields sum / window size by integer division.  The evicted value is the
    element the list lookup finds in the cursor slot; the other slots are
    left as they were. *)
Theorem insert_steps (st : State) (newValue1 newValue2 : Z) :
  index_ok st ->
  let st' := updateLightAverage st newValue1 newValue2 in
  let idx := lightReadIndex st in
  (smoothedLight1 st', channel1 st') = Filter.insert (channel1 st) newValue1 /\
  (smoothedLight2 st', channel2 st') = Filter.insert (channel2 st) newValue2 /\
  lightTotalValue1 st'
    = to_long (lightTotalValue1 st - array_get (lightReadings1 st) idx + newValue1) /\
  lightTotalValue2 st'
    = to_long (lightTotalValue2 st - array_get (lightReadings2 st) idx + newValue2) /\
  lightReadings1 st' = <[Z.to_nat idx := newValue1]> (lightReadings1 st) /\
  lightReadings2 st' = <[Z.to_nat idx := newValue2]> (lightReadings2 st) /\
  lightReadIndex st' = (idx + 1) mod lightAverageWindow /\
  smoothedLight1 st' = Z.quot (lightTotalValue1 st') lightAverageWindow /\
  smoothedLight2 st' = Z.quot (lightTotalValue2 st') lightAverageWindow /\
  (forall old1 : Z,
     lightReadings1 st !! Z.to_nat idx = Some old1 ->
     lightTotalValue1 st' = to_long (lightTotalValue1 st - old1 + newValue1) /\
     (Width.in_signed (lightTotalValue1 st - old1 + newValue1) ->
      lightTotalValue1 st' = lightTotalValue1 st - old1 + newValue1) /\
     lightReadings1 st' !! Z.to_nat idx = Some newValue1) /\
  (forall old2 : Z,
     lightReadings2 st !! Z.to_nat idx = Some old2 ->
     lightTotalValue2 st' = to_long (lightTotalValue2 st - old2 + newValue2) /\
     (Width.in_signed (lightTotalValue2 st - old2 + newValue2) ->
      lightTotalValue2 st' = lightTotalValue2 st - old2 + newValue2) /\
     lightReadings2 st' !! Z.to_nat idx = Some newValue2) /\
  (forall j : nat,
     j <> Z.to_nat idx ->
     lightReadings1 st' !! j = lightReadings1 st !! j /\
     lightReadings2 st' !! j = lightReadings2 st !! j) /\
  (array_shape st ->
   is_Some (lightReadings1 st !! Z.to_nat idx) /\
   is_Some (lightReadings2 st !! Z.to_nat idx) /\
   array_shape st').
Proof.
  intros Hidx st' idx.
  assert (forall (buf : list Z) total old v,
            buf !! Z.to_nat idx = Some old ->
            let total' := to_long (to_long (total - array_get buf idx) + v) in
            total' = to_long (total - old + v) /\
            (Width.in_signed (total - old + v) -> total' = total - old + v) /\
            array_set buf idx v !! Z.to_nat idx = Some v) as Hslot.
  { intros buf total old v Hold total'.
    assert (total' = to_long (total - old + v)) as Ht.
    { unfold total', array_get. rewrite Hold. apply total_step. }
    split; [exact Ht |]. split.
    - intros Hfit. rewrite Ht. now apply wrap_signed_id.
    - apply list_lookup_insert_eq. now apply lookup_lt_Some in Hold. }
  split; [apply update_channel1, Hidx |].
  split; [apply update_channel2, Hidx |].
  split; [apply total_step |].
  split; [apply total_step |].
  split; [reflexivity |].
  split; [reflexivity |].
  split; [apply update_index, Hidx |].
  split; [apply update_smoothed1 |].
  split; [apply update_smoothed2 |].
  split; [intros old1 Hold; apply (Hslot _ (lightTotalValue1 st) _ newValue1 Hold) |].
  split; [intros old2 Hold; apply (Hslot _ (lightTotalValue2 st) _ newValue2 Hold) |].
  split.
  - intros j Hj. split; apply list_lookup_insert_ne; intros E; apply Hj; symmetry; exact E.
  - intros Hs. pose proof Hs as [L1 L2].
    unfold index_ok in Hidx. fold idx in Hidx. rewrite window_value in Hidx.
    rewrite window_nat in L1, L2.
    split; [apply lookup_lt_is_Some_2; lia |].
    split; [apply lookup_lt_is_Some_2; lia |].
    now apply update_shape.
Qed.

(** C3 at a state whose cursor is in the last slot and whose slots hold
    109 and 209 there: the sums lose exactly those values and the cursor
    wraps to 0. *)
Lemma insert_steps_witness :
  let st := inserts setup rising_reads in
  let st' := updateLightAverage st 1000 2000 in
  index_ok st /\ lightReadIndex st = 9 /\
  lightReadings1 st !! 9%nat = Some 109 /\ lightReadings2 st !! 9%nat = Some 209 /\
  lightTotalValue1 st' = lightTotalValue1 st - 109 + 1000 /\
  lightTotalValue2 st' = lightTotalValue2 st - 209 + 2000 /\
  lightReadings1 st' !! 9%nat = Some 1000 /\
  lightReadings1 st' !! 8%nat = lightReadings1 st !! 8%nat /\
  lightReadIndex st' = 0 /\
  smoothedLight1 st' = Z.quot (lightTotalValue1 st') 10.
Proof.
  intros st st'.
  assert (index_ok st) as Hidx by (vm_compute; split; [discriminate | reflexivity]).
  assert (lightReadIndex st = 9) as Hnine by (vm_compute; reflexivity).
  assert (lightReadings1 st !! 9%nat = Some 109) as Hold1 by (vm_compute; reflexivity).
  assert (lightReadings2 st !! 9%nat = Some 209) as Hold2 by (vm_compute; reflexivity).
  destruct (insert_steps st 1000 2000 Hidx)
    as (_ & _ & _ & _ & _ & _ & Hnext & Hq & _ & H1 & H2 & Hother & _).
  fold st' in Hnext, Hq, H1, H2, Hother.
  rewrite Hnine in Hnext, H1, H2, Hother.
  destruct (H1 109 Hold1) as (_ & Hexact1 & Hnew1).
  destruct (H2 209 Hold2) as (_ & Hexact2 & _).
  split; [exact Hidx |]. split; [exact Hnine |].
  split; [exact Hold1 |]. split; [exact Hold2 |].
  split; [apply Hexact1; vm_compute; split; discriminate |].
  split; [apply Hexact2; vm_compute; split; discriminate |].
  split; [exact Hnew1 |].
  split; [apply (Hother 8%nat); discriminate |].
  split; [exact Hnext | exact Hq].
Defined.

(** C4, as the code has it: after [initializeLightAverage] and after every
    [updateLightAverage] each buffer holds exactly window-size entries
    (all zero after the reset) and each running sum equals the sum of its
    buffer reduced to the 32-bit [long] that holds it; the running sum is
    the exact sum whenever that sum fits, in particular whenever every
    buffered sample lies within [-sample_bound, sample_bound]. *)
Theorem filter_invariant (st : State) (newValue1 newValue2 : Z) :
  (array_shape st ->
   filter_inv (initializeLightAverage st) /\
   lightReadings1 (initializeLightAverage st) = replicate 10 0 /\
   lightReadings2 (initializeLightAverage st) = replicate 10 0) /\
  (filter_inv st ->
   let st' := updateLightAverage st newValue1 newValue2 in
   filter_inv st' /\
   lightReadings1 st' = <[Z.to_nat (lightReadIndex st) := newValue1]> (lightReadings1 st) /\
   lightReadings2 st' = <[Z.to_nat (lightReadIndex st) := newValue2]> (lightReadings2 st) /\
   lightReadIndex st' = (lightReadIndex st + 1) mod lightAverageWindow) /\
  (filter_inv st ->
   length (lightReadings1 st) = 10%nat /\ length (lightReadings2 st) = 10%nat /\
   lightTotalValue1 st = to_long (sumZ (lightReadings1 st)) /\
   lightTotalValue2 st = to_long (sumZ (lightReadings2 st)) /\
   (Width.in_signed (sumZ (lightReadings1 st)) ->
    lightTotalValue1 st = sumZ (lightReadings1 st)) /\
   (Width.in_signed (sumZ (lightReadings2 st)) ->
    lightTotalValue2 st = sumZ (lightReadings2 st)) /\
   (Forall (fun x => - sample_bound <= x <= sample_bound) (lightReadings1 st) ->
    lightTotalValue1 st = sumZ (lightReadings1 st)) /\
   (Forall (fun x => - sample_bound <= x <= sample_bound) (lightReadings2 st) ->
    lightTotalValue2 st = sumZ (lightReadings2 st))).
Proof.
  split; [| split].
  - intros Hs. split; [now apply initialize_inv | now apply initialize_readings].
  - intros Hinv st'. split; [now apply update_inv |].
    split; [reflexivity |]. split; [reflexivity |].
    apply update_index, Hinv.
  - intros ([L1 L2] & _ & S1 & S2).
    assert (forall buf : list Z, length buf = 10%nat ->
              Forall (fun x => - sample_bound <= x <= sample_bound) buf ->
              Width.in_signed (sumZ buf)) as Hfit.
    { intros buf Hlen Hall. pose proof (sumZ_bounded _ _ _ Hall) as Hb.
      rewrite Hlen in Hb. revert Hb. change sample_bound with 214748364.
      unfold Width.in_signed, Width.INT_MIN, Width.INT_MAX. rewrite half_value. lia. }
    repeat split; try assumption.
    + intros Hfits. rewrite S1. now apply wrap_signed_id.
    + intros Hfits. rewrite S2. now apply wrap_signed_id.
    + intros Hall. rewrite S1. apply wrap_signed_id, Hfit; assumption.
    + intros Hall. rewrite S2. apply wrap_signed_id, Hfit; assumption.
Qed.

Lemma filter_invariant_witness :
  filter_inv setup /\ filter_inv (updateLightAverage setup 1000 200) /\
  lightTotalValue1 (updateLightAverage setup 1000 200)
  = sumZ (lightReadings1 (updateLightAverage setup 1000 200)).
Proof.
  assert (array_shape power_on) as Hs by (split; reflexivity).
  destruct (filter_invariant power_on 0 0) as [Hreset _].
  destruct (Hreset Hs) as [Hinv _].
  destruct (filter_invariant setup 1000 200) as (_ & Hstep & _).
  destruct (Hstep Hinv) as [Hinv' _].
  destruct (filter_invariant (updateLightAverage setup 1000 200) 0 0) as (_ & _ & Hsum).
  destruct (Hsum Hinv') as (_ & _ & _ & _ & Hexact & _).
  split; [exact Hinv |]. split; [exact Hinv' |].
  apply Hexact. vm_compute. split; discriminate.
Defined.

(** C4 as stated fails for samples whose sum leaves the range of the
    32-bit running sum: two inserts of INT_MAX after a reset leave the sum
    variable at -2 while the buffer adds up to 4294967294. *)
Lemma exact_sum_counterexample :
  let st := updateLightAverage (updateLightAverage setup 2147483647 0) 2147483647 0 in
  lightReadings1 st = [2147483647; 2147483647; 0; 0; 0; 0; 0; 0; 0; 0] /\
  lightTotalValue1 st = -2 /\
  lightTotalValue1 st <> sumZ (lightReadings1 st).
Proof. vm_compute. repeat split; discriminate. Qed.

(** ** Runs that start from a reset *)

Section FromReset.

Variable st0 : State.
Hypothesis shape0 : array_shape st0.

Lemma reset_history :
  history1 (initializeLightAverage st0) = replicate 10 0 /\
  history2 (initializeLightAverage st0) = replicate 10 0.
Proof.
  destruct (initialize_readings st0 shape0) as [R1 R2].
  unfold history1, history2, history. rewrite R1, R2.
  assert (lightReadIndex (initializeLightAverage st0) = 0) as ->.
  { unfold initializeLightAverage. now destruct (zero_fill _ _ _ _). }
  split; reflexivity.
Qed.

(** The buffer contents after a reset and a sequence of inserts: the last
    ten of ten zeros followed by everything inserted. *)
Lemma after_reset_history vs :
  history1 (inserts (initializeLightAverage st0) vs)
    = lastn 10 (replicate 10 0 ++ map fst vs) /\
  history2 (inserts (initializeLightAverage st0) vs)
    = lastn 10 (replicate 10 0 ++ map snd vs).
Proof.
  destruct (initialize_inv st0 shape0) as (Hs & Hi & _).
  destruct reset_history as [H1 H2].
  rewrite (inserts_history1 _ vs Hs Hi), (inserts_history2 _ vs Hs Hi), H1, H2.
  split; reflexivity.
Qed.

End FromReset.

Lemma quot_floor_nonneg z :
  0 <= z <= Width.INT_MAX -> Z.quot (to_long z) lightAverageWindow = z / lightAverageWindow.
Proof.
  intros Hz. unfold to_long. rewrite wrap_signed_id.
  - apply Z.quot_div_nonneg; [lia | reflexivity].
  - unfold Width.in_signed, Width.INT_MIN, Width.INT_MAX in *.
    rewrite half_value in *. lia.
Qed.

Lemma window_contents_bounded (vs : list Z) (lo hi : Z) :
  lo <= 0 <= hi ->
  Forall (fun x => lo <= x <= hi) vs ->
  Forall (fun x => lo <= x <= hi) (lastn 10 (replicate 10 0 ++ vs)).
Proof.
  intros H0 Hvs. unfold lastn. apply Forall_drop, Forall_app. split; [| exact Hvs].
  apply Forall_replicate. exact H0.
Qed.

(** C5, as the code has it: after a reset and any non-empty sequence of
    inserts (nothing is checked about the values) the buffer holds the last
    ten of ten zeros followed by the inserted values, and the returned
    smoothed value is the 32-bit sum of those contents divided by the
    window size with truncation toward zero; it is floor(sum / N) whenever
    the sum is non-negative and fits, in particular whenever every inserted
    value lies in 0 .. sample_bound. *)
Theorem smoothed_is_truncated_mean (st0 : State) (vs : list (Z * Z)) (v : Z * Z) :
  array_shape st0 ->
  let st := inserts (initializeLightAverage st0) (vs ++ [v]) in
  let contents1 := lastn 10 (replicate 10 0 ++ map fst (vs ++ [v])) in
  let contents2 := lastn 10 (replicate 10 0 ++ map snd (vs ++ [v])) in
  (history1 st = contents1 /\ history2 st = contents2) /\
  (sumZ (lightReadings1 st) = sumZ contents1 /\
   sumZ (lightReadings2 st) = sumZ contents2) /\
  (smoothedLight1 st = Z.quot (to_long (sumZ contents1)) lightAverageWindow /\
   smoothedLight2 st = Z.quot (to_long (sumZ contents2)) lightAverageWindow) /\
  (0 <= sumZ contents1 <= Width.INT_MAX ->
   smoothedLight1 st = sumZ contents1 / lightAverageWindow) /\
  (0 <= sumZ contents2 <= Width.INT_MAX ->
   smoothedLight2 st = sumZ contents2 / lightAverageWindow) /\
  (Forall (fun x => 0 <= fst x <= sample_bound /\ 0 <= snd x <= sample_bound) (vs ++ [v]) ->
   smoothedLight1 st = sumZ contents1 / lightAverageWindow /\
   smoothedLight2 st = sumZ contents2 / lightAverageWindow).
Proof.
  intros Hs st contents1 contents2.
  destruct (after_reset_history st0 Hs (vs ++ [v])) as [H1 H2].
  fold st contents1 in H1. fold st contents2 in H2.
  pose proof (initialize_inv st0 Hs) as Hinv.
  assert (smoothedLight1 st = Z.quot (to_long (sumZ contents1)) lightAverageWindow) as Q1.
  { rewrite <- H1. apply inserts_smoothed1, Hinv. }
  assert (smoothedLight2 st = Z.quot (to_long (sumZ contents2)) lightAverageWindow) as Q2.
  { rewrite <- H2. apply inserts_smoothed2, Hinv. }
  split; [split; assumption |].
  split.
  { rewrite <- H1, <- H2. unfold history1, history2. now rewrite !sumZ_history. }
  split; [split; assumption |].
  split; [intros Hfit; rewrite Q1; now apply quot_floor_nonneg |].
  split; [intros Hfit; rewrite Q2; now apply quot_floor_nonneg |].
  intros Hall.
  assert (forall contents : list Z,
            length contents = 10%nat ->
            Forall (fun x => 0 <= x <= sample_bound) contents ->
            0 <= sumZ contents <= Width.INT_MAX) as Hfit.
  { intros c Hlen Hc. pose proof (sumZ_bounded _ _ _ Hc) as Hb.
    rewrite Hlen in Hb. revert Hb. change sample_bound with 214748364.
    unfold Width.INT_MAX. rewrite half_value. lia. }
  assert (forall f : Z * Z -> Z, length (lastn 10 (replicate 10 0 ++ map f (vs ++ [v]))) = 10%nat)
    as Hlen.
  { intros f. apply lastn_length. rewrite length_app, length_replicate. lia. }
  split.
  - rewrite Q1. apply quot_floor_nonneg, Hfit; [apply Hlen |].
    apply window_contents_bounded; [change sample_bound with 214748364; lia |].
    apply Forall_fmap. eapply Forall_impl; [exact Hall |]. simpl. tauto.
  - rewrite Q2. apply quot_floor_nonneg, Hfit; [apply Hlen |].
    apply window_contents_bounded; [change sample_bound with 214748364; lia |].
    apply Forall_fmap. eapply Forall_impl; [exact Hall |]. simpl. tauto.
Qed.

Lemma smoothed_is_truncated_mean_witness :
  array_shape power_on /\
  smoothedLight1 (inserts (initializeLightAverage power_on) [(1000, 200); (1023, 7)])
  = (1000 + 1023) / 10.
Proof.
  assert (array_shape power_on) as Hs by (split; reflexivity).
  split; [exact Hs |].
  destruct (smoothed_is_truncated_mean power_on [(1000, 200)] (1023, 7) Hs)
    as (_ & _ & _ & _ & _ & Hfloor).
  destruct Hfloor as [H _].
  - repeat constructor; simpl; change sample_bound with 214748364; lia.
  - exact H.
Defined.

(** C5 as stated fails on a negative sample: after a reset, inserting -1
    gives the buffer sum -1 and the smoothed value 0, while
    floor(-1 / 10) = -1. *)
Lemma floor_counterexample :
  let st := updateLightAverage setup (-1) 0 in
  sumZ (lightReadings1 st) = -1 /\
  smoothedLight1 st = 0 /\
  smoothedLight1 st <> sumZ (lightReadings1 st) / lightAverageWindow.
Proof. vm_compute. repeat split; discriminate. Qed.

(** Ten equal samples: the quotient gives the sample back exactly when ten
    times the sample fits the running sum. *)
Lemma quot_ten_times v :
  - sample_bound <= v <= sample_bound ->
  Z.quot (to_long (Z.of_nat 10 * v)) lightAverageWindow = v.
Proof.
  change sample_bound with 214748364. intros Hv.
  unfold to_long. rewrite wrap_signed_id.
  - change (Z.of_nat 10) with 10. rewrite window_value, Z.mul_comm.
    apply Z.quot_mul. lia.
  - unfold Width.in_signed, Width.INT_MIN, Width.INT_MAX. rewrite half_value. lia.
Qed.

Lemma quot_ten_times_only v :
  Width.in_signed v ->
  Z.quot (to_long (Z.of_nat 10 * v)) lightAverageWindow = v ->
  - sample_bound <= v <= sample_bound.
Proof.
  change sample_bound with 214748364. change (Z.of_nat 10) with 10.
  rewrite window_value. unfold to_long.
  intros Hv Hq.
  destruct (wrap_signed_multiple (10 * v)) as [k Hk].
  pose proof (wrap_signed_range (10 * v)) as Hr.
  rewrite Hk, modulus_value in *.
  unfold Width.in_signed, Width.INT_MIN, Width.INT_MAX in *. rewrite half_value in *.
  set (x := 10 * v - k * 4294967296) in *.
  assert (- 10 < x - 10 * v < 10) as Hclose.
  { pose proof (Z.quot_rem' x 10) as Hqr.
    pose proof (Z.rem_bound_abs x 10). lia. }
  lia.
Qed.

(** C6, as the code has it: for every constant v with
    -sample_bound <= v <= sample_bound (ten times v fits the 32-bit running
    sum; every ADC reading does), inserting v window-size times into a
    freshly reset filter makes the last insert return v exactly; for a
    32-bit v outside that range it does not. *)
Theorem constant_input_converges (st0 : State) (v w : Z) :
  array_shape st0 ->
  let st := inserts (initializeLightAverage st0)
              (replicate (Z.to_nat lightAverageWindow) (v, w)) in
  (- sample_bound <= v <= sample_bound -> smoothedLight1 st = v) /\
  (- sample_bound <= w <= sample_bound -> smoothedLight2 st = w) /\
  (Width.in_signed v -> smoothedLight1 st = v -> - sample_bound <= v <= sample_bound) /\
  (Width.in_signed w -> smoothedLight2 st = w -> - sample_bound <= w <= sample_bound).
Proof.
  intros Hs st.
  pose proof (initialize_inv st0 Hs) as Hinv.
  assert (replicate (Z.to_nat lightAverageWindow) (v, w) = replicate 9 (v, w) ++ [(v, w)])
    as Hsplit by reflexivity.
  destruct (after_reset_history st0 Hs (replicate (Z.to_nat lightAverageWindow) (v, w)))
    as [H1 H2].
  fold st in H1, H2.
  rewrite lastn_app_exact in H1 by reflexivity.
  rewrite lastn_app_exact in H2 by reflexivity.
  assert (smoothedLight1 st = Z.quot (to_long (Z.of_nat 10 * v)) lightAverageWindow) as Q1.
  { unfold st. rewrite Hsplit, inserts_smoothed1 by exact Hinv.
    rewrite <- Hsplit. fold st. rewrite H1.
    change (map fst _) with (replicate 10 v).
    now rewrite (sumZ_replicate 10 v). }
  assert (smoothedLight2 st = Z.quot (to_long (Z.of_nat 10 * w)) lightAverageWindow) as Q2.
  { unfold st. rewrite Hsplit, inserts_smoothed2 by exact Hinv.
    rewrite <- Hsplit. fold st. rewrite H2.
    change (map snd _) with (replicate 10 w).
    now rewrite (sumZ_replicate 10 w). }
  rewrite Q1, Q2.
  split; [apply quot_ten_times |].
  split; [apply quot_ten_times |].
  split; apply quot_ten_times_only.
Qed.

Lemma constant_input_converges_witness :
  array_shape power_on /\
  smoothedLight1 (inserts setup (replicate 10 (1000, 200))) = 1000 /\
  smoothedLight2 (inserts setup (replicate 10 (1000, 200))) = 200.
Proof.
  assert (array_shape power_on) as Hs by (split; reflexivity).
  split; [exact Hs |].
  destruct (constant_input_converges power_on 1000 200 Hs) as (H1 & H2 & _).
  split; [apply H1 | apply H2]; change sample_bound with 214748364; lia.
Defined.

(** C6 as stated fails for a constant whose tenfold leaves the range of
    the 32-bit running sum: ten inserts of 214748365 after a reset return
    -214748364. *)
Lemma constant_counterexample :
  let st := inserts setup (replicate 10 (214748365, 0)) in
  lightReadings1 st = replicate 10 214748365 /\
  smoothedLight1 st = -214748364 /\
  smoothedLight1 st <> 214748365.
Proof. vm_compute. repeat split; discriminate. Qed.

Lemma inserts_smoothed_nonempty st vs :
  filter_inv st -> vs <> [] ->
  smoothedLight1 (inserts st vs)
    = Z.quot (to_long (sumZ (history1 (inserts st vs)))) lightAverageWindow /\
  smoothedLight2 (inserts st vs)
    = Z.quot (to_long (sumZ (history2 (inserts st vs)))) lightAverageWindow.
Proof.
  intros Hinv Hne. destruct (exists_last Hne) as (front & v & ->).
  split; [now apply inserts_smoothed1 | now apply inserts_smoothed2].
Qed.

(** After at least a full window of inserts the history is the last window
    of what was inserted, whatever came before. *)
Lemma full_window_history st (earlier recent : list (Z * Z)) :
  array_shape st -> index_ok st ->
  length recent = Z.to_nat lightAverageWindow ->
  history1 (inserts st (earlier ++ recent)) = map fst recent /\
  history2 (inserts st (earlier ++ recent)) = map snd recent.
Proof.
  intros Hs Hi Hlen.
  rewrite (inserts_history1 _ _ Hs Hi), (inserts_history2 _ _ Hs Hi).
  rewrite !map_app, !app_assoc.
  split; apply lastn_app_exact; now rewrite length_map.
Qed.

(** C7: two insertion sequences of length window_size + k that agree on
    their last window_size values leave the same smoothed value after the
    final insert, from whatever filter states they start (k >= 1 or not):
    the sample history is exactly the last window_size inserted values in
    the order they came, and for a run of [loop] passes these are the
    readings of the last window_size serviced passes (preceded by what the
    buffer held while fewer have been serviced). *)
Theorem recent_window_only (stA stB : State) (k : nat) (seqA seqB : list (Z * Z)) :
  filter_inv stA -> filter_inv stB ->
  length seqA = (Z.to_nat lightAverageWindow + k)%nat ->
  length seqB = (Z.to_nat lightAverageWindow + k)%nat ->
  drop k seqA = drop k seqB ->
  let a := inserts stA seqA in
  let b := inserts stB seqB in
  (smoothedLight1 a = smoothedLight1 b /\ smoothedLight2 a = smoothedLight2 b) /\
  (history1 a = map fst (drop k seqA) /\ history2 a = map snd (drop k seqA)) /\
  (smoothedLight1 a = Z.quot (to_long (sumZ (map fst (drop k seqA)))) lightAverageWindow /\
   smoothedLight2 a = Z.quot (to_long (sumZ (map snd (drop k seqA)))) lightAverageWindow) /\
  (forall ps : list Pass,
     history1 (run_passes stA ps)
       = lastn 10 (history1 stA ++ map fst (serviced_reads stA ps)) /\
     history2 (run_passes stA ps)
       = lastn 10 (history2 stA ++ map snd (serviced_reads stA ps))) /\
  (forall ps : list Pass,
     (10 <= length (serviced_reads stA ps))%nat ->
     history1 (run_passes stA ps) = lastn 10 (map fst (serviced_reads stA ps)) /\
     history2 (run_passes stA ps) = lastn 10 (map snd (serviced_reads stA ps))).
Proof.
  intros HA HB LA LB Hagree a b.
  assert (forall st (l : list (Z * Z)),
            filter_inv st -> length l = (Z.to_nat lightAverageWindow + k)%nat ->
            (history1 (inserts st l) = map fst (drop k l) /\
             history2 (inserts st l) = map snd (drop k l)) /\
            smoothedLight1 (inserts st l)
              = Z.quot (to_long (sumZ (map fst (drop k l)))) lightAverageWindow /\
            smoothedLight2 (inserts st l)
              = Z.quot (to_long (sumZ (map snd (drop k l)))) lightAverageWindow) as Hwin.
  { intros st l Hinv Hl. pose proof Hinv as (Hs & Hi & _).
    assert (l <> []) as Hne by (intros ->; rewrite window_nat in Hl; discriminate).
    destruct (inserts_smoothed_nonempty st l Hinv Hne) as [Q1 Q2].
    destruct (full_window_history st (take k l) (drop k l) Hs Hi) as [H1 H2];
      [rewrite length_drop; lia |].
    rewrite take_drop in H1, H2.
    rewrite Q1, Q2, H1, H2. auto. }
  destruct (Hwin stA seqA HA LA) as (HhA & QA1 & QA2).
  destruct (Hwin stB seqB HB LB) as (_ & QB1 & QB2).
  fold a in HhA, QA1, QA2. fold b in QB1, QB2.
  split; [rewrite QA1, QA2, QB1, QB2, Hagree; auto |].
  split; [exact HhA |].
  split; [auto |].
  assert (forall ps : list Pass,
            history1 (run_passes stA ps)
              = lastn 10 (history1 stA ++ map fst (serviced_reads stA ps)) /\
            history2 (run_passes stA ps)
              = lastn 10 (history2 stA ++ map snd (serviced_reads stA ps))) as Hrun.
  { intros ps. pose proof HA as (Hs & Hi & _).
    rewrite (filters_history1 _ _ (run_passes_filters stA ps)).
    rewrite (filters_history2 _ _ (run_passes_filters stA ps)).
    split; [apply inserts_history1 | apply inserts_history2]; assumption. }
  split; [exact Hrun |].
  intros ps Hfull. destruct (Hrun ps) as [R1 R2]. rewrite R1, R2.
  split; apply lastn_app_long; now rewrite length_map.
Qed.

Lemma recent_window_only_witness :
  filter_inv setup /\
  smoothedLight1 (inserts setup ((5, 6) :: (7, 8) :: replicate 10 (1000, 200)))
  = smoothedLight1 (inserts (updateLightAverage setup 900 900)
                      ((1, 2) :: (3, 4) :: replicate 10 (1000, 200))).
Proof.
  assert (filter_inv setup) as Hinv by (apply initialize_inv; split; reflexivity).
  split; [exact Hinv |].
  apply (recent_window_only setup (updateLightAverage setup 900 900) 2
           ((5, 6) :: (7, 8) :: replicate 10 (1000, 200))
           ((1, 2) :: (3, 4) :: replicate 10 (1000, 200)));
    try reflexivity; [exact Hinv | apply update_inv, Hinv].
Defined.

(** C8: two states with the same filters and the same last tick time, which
    may hold different movement codes, get the same new movement code from a
    serviced tick with the same clock and readings. *)
Theorem classifier_memoryless (a b : State) (now raw_left raw_right : Z) :
  filters a = filters b ->
  lastLightReadTime a = lastLightReadTime b ->
  serviced a now = true ->
  serviced b now = true /\
  currentMovement (handleInput a now raw_left raw_right)
  = currentMovement (handleInput b now raw_left raw_right) /\
  fst (tick a now raw_left raw_right) = fst (tick b now raw_left raw_right) /\
  filters (handleInput a now raw_left raw_right)
  = filters (handleInput b now raw_left raw_right).
Proof.
  intros Hf Ht Hs.
  assert (serviced b now = true) as Hsb by (unfold serviced in *; now rewrite <- Ht).
  destruct (handle_serviced a now raw_left raw_right Hs) as (_ & _ & Ma & _).
  destruct (handle_serviced b now raw_left raw_right Hsb) as (_ & _ & Mb & _).
  pose proof (update_filters a b raw_left raw_right Hf) as Hu.
  assert (currentMovement (handleInput a now raw_left raw_right)
          = currentMovement (handleInput b now raw_left raw_right)) as Hm.
  { rewrite Ma, Mb.
    rewrite (update_smoothed1 a), (update_smoothed1 b).
    rewrite (update_smoothed2 a), (update_smoothed2 b).
    pose proof (f_equal (fun f => snd (fst f)) Hu) as T1.
    pose proof (f_equal snd Hu) as T2.
    cbn [filters fst snd] in T1, T2. now rewrite T1, T2. }
  split; [exact Hsb |]. split; [exact Hm |].
  split; [unfold tick; simpl; now rewrite Hs, Hsb, Hm |].
  now rewrite !handle_filters.
Qed.

Lemma classifier_memoryless_witness :
  let a := handleInput setup 50 1000 200 in
  let b' := mkState 0 (lightValue1 a) (lightValue2 a) (smoothedLight1 a)
              (smoothedLight2 a) (lastLightReadTime a) (lightReadings1 a)
              (lightReadings2 a) (lightReadIndex a) (lightTotalValue1 a)
              (lightTotalValue2 a) in
  currentMovement a <> currentMovement b' /\
  currentMovement (handleInput a 100 300 900) = currentMovement (handleInput b' 100 300 900).
Proof.
  intros a b'. split; [vm_compute; discriminate |].
  apply (classifier_memoryless a b' 100 300 900); reflexivity.
Defined.

(** ** The two channels against two separate filters *)

Section Lockstep.

Lemma apply_op_shape st op : array_shape st -> array_shape (apply_op st op).
Proof.
  intros Hs. destruct op as [|v1 v2]; simpl.
  - apply (initialize_inv st Hs).
  - now apply update_shape.
Qed.

Lemma apply_op_index st op :
  array_shape st -> index_ok st -> index_ok (apply_op st op).
Proof.
  intros Hs Hi. destruct op as [|v1 v2]; simpl.
  - apply (initialize_inv st Hs).
  - now apply update_index_ok.
Qed.

Lemma initialize_channels st :
  array_shape st ->
  channel1 (initializeLightAverage st) = Filter.reset /\
  channel2 (initializeLightAverage st) = Filter.reset.
Proof.
  intros Hs. destruct (initialize_readings st Hs) as [R1 R2].
  unfold channel1, channel2, Filter.reset. rewrite R1, R2.
  unfold initializeLightAverage. destruct (zero_fill _ _ _ _). simpl. auto.
Qed.

Lemma apply_op_channels st op :
  array_shape st -> index_ok st ->
  channel1 (apply_op st op) = Filter.step (channel1 st) (left_op op) /\
  channel2 (apply_op st op) = Filter.step (channel2 st) (right_op op).
Proof.
  intros Hs Hi. destruct op as [|v1 v2]; cbn [apply_op left_op right_op Filter.step].
  - now apply initialize_channels.
  - rewrite <- (update_channel1 st v1 v2 Hi), <- (update_channel2 st v1 v2 Hi).
    split; reflexivity.
Qed.

Lemma op_writes_channels st op :
  fst (op_writes st op) = Filter.writes_of (channel1 st) (left_op op) /\
  snd (op_writes st op) = Filter.writes_of (channel2 st) (right_op op).
Proof. destruct op; split; reflexivity. Qed.

End Lockstep.

(** C9: the one cursor [lightReadIndex] serves both channels.  Over any
    sequence of resets and inserts each channel of the sketch is exactly a
    filter of its own run on its own samples, the cursors of those two
    filters are equal after every sequence, and the two buffers are written
    at the same positions in the same order, hence equally often. *)
Theorem channels_in_lockstep (st : State) (ops : list filter_op) :
  array_shape st -> index_ok st ->
  let st' := apply_ops st ops in
  let f1 := Filter.run (channel1 st) (map left_op ops) in
  let f2 := Filter.run (channel2 st) (map right_op ops) in
  channel1 st' = f1 /\ channel2 st' = f2 /\
  Filter.cursor f1 = Filter.cursor f2 /\
  Filter.cursor f1 = lightReadIndex st' /\
  fst (ops_writes st ops) = snd (ops_writes st ops) /\
  fst (ops_writes st ops) = Filter.writes (channel1 st) (map left_op ops) /\
  snd (ops_writes st ops) = Filter.writes (channel2 st) (map right_op ops).
Proof.
  revert st. induction ops as [|op ops IH]; intros st Hs Hi; simpl.
  - repeat split; reflexivity.
  - destruct (apply_op_channels st op Hs Hi) as [C1 C2].
    destruct (op_writes_channels st op) as [W1 W2].
    destruct (IH (apply_op st op) (apply_op_shape _ _ Hs) (apply_op_index _ _ Hs Hi))
      as (I1 & I2 & I3 & I4 & I5 & I6 & I7).
    simpl in I1, I2, I3, I4. rewrite C1 in I1, I3, I4, I6. rewrite C2 in I2, I3, I7.
    unfold apply_ops, Filter.run in *.
    repeat split; try assumption.
    + rewrite I5. f_equal. destruct op; reflexivity.
    + now rewrite W1, I6.
    + now rewrite W2, I7.
Qed.

Lemma channels_in_lockstep_witness :
  array_shape power_on /\ index_ok power_on /\
  channel2 (apply_ops power_on [OpReset; OpInsert 1000 200; OpInsert 900 300])
  = Filter.run (channel2 power_on) [None; Some 200; Some 300].
Proof.
  assert (array_shape power_on) as Hs by (split; reflexivity).
  assert (index_ok power_on) as Hi by (vm_compute; split; [discriminate | reflexivity]).
  split; [exact Hs |]. split; [exact Hi |].
  apply (channels_in_lockstep power_on
           [OpReset; OpInsert 1000 200; OpInsert 900 300] Hs Hi).
Defined.

(** C10: the gate is the comparison of the unsigned 32-bit difference with
    the interval: a call is serviced iff (now - last_tick_time) mod 2^32 >=
    min_interval, which for 32-bit timestamps is now - last_tick_time when
    the clock has not wrapped and now + 2^32 - last_tick_time when it has. *)
Theorem gate_is_modular (st : State) (now raw_left raw_right : Z) :
  (serviced st now = true
   <-> (now - lastLightReadTime st) mod 2 ^ 32 >= lightReadInterval) /\
  fst (fst (tick st now raw_left raw_right)) = serviced st now /\
  (serviced st now = true ->
   lastLightReadTime (handleInput st now raw_left raw_right) = now) /\
  (serviced st now = false -> handleInput st now raw_left raw_right = st) /\
  (0 <= lastLightReadTime st <= now -> now < 2 ^ 32 ->
   (serviced st now = true <-> now - lastLightReadTime st >= lightReadInterval)) /\
  (0 <= now < lastLightReadTime st -> lastLightReadTime st < 2 ^ 32 ->
   (serviced st now = true
    <-> now + 2 ^ 32 - lastLightReadTime st >= lightReadInterval)).
Proof.
  split; [rewrite serviced_spec; lia |].
  split; [reflexivity |].
  split; [intros Hs; apply (handle_serviced st now raw_left raw_right Hs) |].
  split; [apply handle_closed |].
  split.
  - intros Hle Hlt. rewrite serviced_spec, Z.mod_small by lia. lia.
  - intros Hlt Hmax. rewrite serviced_spec.
    replace ((now - lastLightReadTime st) mod 2 ^ 32)
      with (now + 2 ^ 32 - lastLightReadTime st); [lia |].
    apply (Z.mod_unique _ _ (-1)); lia.
Qed.

Lemma gate_is_modular_witness :
  let st := handleInput setup 4294967290 1000 200 in
  lastLightReadTime st = 4294967290 /\
  serviced st 100 = true /\
  lastLightReadTime (handleInput st 100 1000 200) = 100.
Proof.
  intros st.
  destruct (gate_is_modular st 100 1000 200) as (_ & _ & Hupd & _ & _ & Hwrap).
  assert (serviced st 100 = true) as Hs.
  { apply Hwrap; vm_compute;
      [split; [discriminate | reflexivity] | reflexivity | discriminate]. }
  split; [reflexivity |]. split; [exact Hs | exact (Hupd Hs)].
Defined.

(** * Further properties of the sketch *)

(** ** Whole runs of [loop] *)

Lemma classify_valid s1 s2 : valid_movement (classify s1 s2).
Proof.
  unfold classify, valid_movement, Neutral, Up, Down.
  destruct (_ <=? _); [auto |]. destruct (_ >? _); auto.
Qed.

Lemma handle_movement_valid st now r1 r2 :
  valid_movement (currentMovement st) ->
  valid_movement (currentMovement (handleInput st now r1 r2)).
Proof.
  intros Hv. destruct (serviced st now) eqn:Hs.
  - destruct (handle_serviced st now r1 r2 Hs) as (_ & _ & Hm & _).
    rewrite Hm. apply classify_valid.
  - now rewrite handle_closed.
Qed.

Lemma run_loop_state st ps : fst (run_loop st ps) = run_passes st ps.
Proof.
  revert st. induction ps as [|p ps IH]; intros st; [reflexivity |].
  cbn [run_loop loop].
  specialize (IH (handleInput st (p_now p) (p_raw1 p) (p_raw2 p))).
  destruct (run_loop _ ps) as [st'' later]. exact IH.
Qed.

Lemma filter_inv_filters a b : filters a = filters b -> filter_inv a -> filter_inv b.
Proof.
  intros Hf.
  pose proof (f_equal (fun f => fst (fst (fst (fst f)))) Hf) as R1.
  pose proof (f_equal (fun f => snd (fst (fst (fst f)))) Hf) as R2.
  pose proof (f_equal (fun f => snd (fst (fst f))) Hf) as I.
  pose proof (f_equal (fun f => snd (fst f)) Hf) as T1.
  pose proof (f_equal snd Hf) as T2.
  cbn [filters fst snd] in R1, R2, I, T1, T2.
  unfold filter_inv, array_shape, index_ok, sums_ok.
  now rewrite R1, R2, I, T1, T2.
Qed.

Lemma handle_inv st now r1 r2 :
  filter_inv st -> filter_inv (handleInput st now r1 r2).
Proof.
  intros Hinv. destruct (serviced st now) eqn:Hs.
  - apply (filter_inv_filters (updateLightAverage st r1 r2)).
    + symmetry. now apply handle_filters.
    + now apply update_inv.
  - now rewrite handle_closed.
Qed.

Lemma run_passes_inv st ps : filter_inv st -> filter_inv (run_passes st ps).
Proof.
  revert st. induction ps as [|p ps IH]; intros st Hinv; [exact Hinv |].
  apply IH, handle_inv, Hinv.
Qed.

Lemma setup_inv : filter_inv setup.
Proof. apply initialize_inv. split; reflexivity. Qed.

(** X1: in every run of [loop] that starts with a documented movement code,
    each pass hands the same code to [sendMovement] and to [updateBuzzer],
    that code is the stored [currentMovement], and it is always 0, 1 or 2. *)
Theorem loop_sends_valid_codes (st : State) (ps : list Pass) :
  valid_movement (currentMovement st) ->
  Forall call_ok (snd (run_loop st ps)) /\
  valid_movement (currentMovement (fst (run_loop st ps))) /\
  (forall now read1 read2,
     snd (loop st now read1 read2)
     = [CallUpdateBLE;
        CallSendMovement (currentMovement (fst (loop st now read1 read2)));
        CallUpdateBuzzer (currentMovement (fst (loop st now read1 read2)))]).
Proof.
  intros Hv. split; [| split; [| reflexivity]].
  - revert st Hv. induction ps as [|p ps IH]; intros st Hv; [constructor |].
    cbn [run_loop loop].
    pose proof (handle_movement_valid st (p_now p) (p_raw1 p) (p_raw2 p) Hv) as Hv'.
    specialize (IH _ Hv').
    destruct (run_loop _ ps) as [st'' later]. cbn [snd] in *.
    repeat (constructor; [exact I || exact Hv' |]). exact IH.
  - rewrite run_loop_state. revert st Hv.
    induction ps as [|p ps IH]; intros st Hv; [exact Hv |].
    apply IH, handle_movement_valid, Hv.
Qed.

Lemma loop_sends_valid_codes_witness :
  valid_movement (currentMovement setup) /\
  Forall call_ok (snd (run_loop setup (steady_passes 1000 200))).
Proof.
  assert (valid_movement (currentMovement setup)) as Hv by (left; reflexivity).
  split; [exact Hv |].
  apply (loop_sends_valid_codes setup (steady_passes 1000 200) Hv).
Defined.

(** X2: over any run of [loop] passes that starts in a state satisfying the
    filter invariant (as [setup] leaves it) the invariant still holds: both
    buffers keep ten entries, the index stays in 0..9, so every array access
    of the sketch is in bounds, and the sums stay those of the buffers. *)
Theorem run_keeps_filter_invariant (st : State) (ps : list Pass) :
  filter_inv st ->
  filter_inv (fst (run_loop st ps)) /\
  0 <= lightReadIndex (fst (run_loop st ps)) < Z.of_nat (length (lightReadings1 (fst (run_loop st ps)))) /\
  0 <= lightReadIndex (fst (run_loop st ps)) < Z.of_nat (length (lightReadings2 (fst (run_loop st ps)))).
Proof.
  intros Hinv. rewrite run_loop_state.
  pose proof (run_passes_inv st ps Hinv) as H.
  split; [exact H |].
  destruct H as ([L1 L2] & Hi & _). rewrite L1, L2. unfold index_ok in Hi.
  rewrite window_nat. change lightAverageWindow with 10 in Hi. lia.
Qed.

Lemma run_keeps_filter_invariant_witness :
  filter_inv setup /\
  filter_inv (fst (run_loop setup (steady_passes 1000 200))).
Proof.
  split; [exact setup_inv |].
  apply (run_keeps_filter_invariant setup (steady_passes 1000 200) setup_inv).
Defined.

(** ** Timing of the readings *)

Lemma to_ulong_plain a b :
  0 <= b <= a -> a < 2 ^ 32 -> to_ulong (a - b) = a - b.
Proof.
  intros Hab Ha. unfold to_ulong, Width.wrap_unsigned.
  rewrite modulus_value. apply Z.mod_small. lia.
Qed.

Lemma last_cons_default (t : Z) (l : list Z) (d : Z) :
  List.last (t :: l) d = List.last l t.
Proof.
  revert t d. induction l as [|u l IH]; intros t d; [reflexivity |].
  change (List.last (t :: u :: l) d) with (List.last (u :: l) d).
  now rewrite (IH u d), (IH u t).
Qed.

Lemma spaced_plain_length prev times :
  spaced_plain prev times ->
  lightReadInterval * Z.of_nat (length times) <= List.last times prev - prev.
Proof.
  revert prev. induction times as [|t rest IH]; intros prev Hsp.
  - simpl. lia.
  - destruct Hsp as [Ht Hrest]. specialize (IH t Hrest).
    rewrite last_cons_default. cbn [length]. lia.
Qed.

Lemma serviced_times_facts (st : State) (ps : list Pass) :
  spaced (lastLightReadTime st) (serviced_times st ps) /\
  lastLightReadTime (run_passes st ps)
  = List.last (serviced_times st ps) (lastLightReadTime st) /\
  length (serviced_times st ps) = length (serviced_reads st ps).
Proof.
  revert st. induction ps as [|p ps IH]; intros st.
  - simpl. auto.
  - change (run_passes st (p :: ps))
      with (run_passes (handleInput st (p_now p) (p_raw1 p) (p_raw2 p)) ps).
    cbn [serviced_times serviced_reads].
    destruct (serviced st (p_now p)) eqn:Hs.
    + destruct (handle_serviced st (p_now p) (p_raw1 p) (p_raw2 p) Hs)
        as (_ & _ & _ & Hlast).
      destruct (IH (handleInput st (p_now p) (p_raw1 p) (p_raw2 p))) as (Hsp & Hl & Hn).
      rewrite Hlast in Hsp, Hl.
      split; [split; [now apply Z.leb_le | exact Hsp] |].
      split; [| cbn [length]; now rewrite Hn].
      now rewrite Hl, last_cons_default.
    + rewrite (handle_closed _ _ _ _ Hs). apply IH.
Qed.

(** X3: readings are rate limited.  In every run the clock value of each
    serviced pass is at least [lightReadInterval] after that of the serviced
    pass before it (after the initial [lastLightReadTime] for the first), as
    an unsigned 32-bit difference, and [lastLightReadTime] ends as the clock
    value of the last serviced pass. *)
Theorem serviced_passes_spaced (st : State) (ps : list Pass) :
  spaced (lastLightReadTime st) (serviced_times st ps) /\
  lastLightReadTime (run_passes st ps)
  = List.last (serviced_times st ps) (lastLightReadTime st) /\
  length (serviced_times st ps) = length (serviced_reads st ps).
Proof. apply serviced_times_facts. Qed.

(** X4: with a clock that starts at or after [lastLightReadTime], never runs
    backwards and stays below 2^32, consecutive serviced passes are at least
    [lightReadInterval] apart in plain time, so a run takes at most
    (elapsed time) / [lightReadInterval] readings. *)
Theorem readings_rate_limited (st : State) (from : Z) (ps : list Pass) :
  0 <= lastLightReadTime st <= from ->
  clock_monotone from ps ->
  spaced_plain (lastLightReadTime st) (serviced_times st ps) /\
  lightReadInterval * Z.of_nat (length (serviced_reads st ps))
  <= lastLightReadTime (run_passes st ps) - lastLightReadTime st.
Proof.
  intros Hfrom Hclock.
  assert (spaced_plain (lastLightReadTime st) (serviced_times st ps)) as Hsp.
  { revert st from Hfrom Hclock. induction ps as [|p ps IH]; intros st from Hfrom Hclock.
    - exact I.
    - destruct Hclock as [Hnow Hrest]. cbn [serviced_times].
      destruct (serviced st (p_now p)) eqn:Hs.
      + destruct (handle_serviced st (p_now p) (p_raw1 p) (p_raw2 p) Hs)
          as (_ & _ & _ & Hlast).
        split.
        * apply Z.leb_le in Hs. rewrite to_ulong_plain in Hs by lia. exact Hs.
        * rewrite <- Hlast at 1. apply (IH _ (p_now p)); [rewrite Hlast; lia | exact Hrest].
      + rewrite (handle_closed _ _ _ _ Hs).
        apply (IH st (p_now p)); [lia | exact Hrest]. }
  split; [exact Hsp |].
  destruct (serviced_times_facts st ps) as (_ & Hl & Hn).
  rewrite Hl, <- Hn. now apply spaced_plain_length.
Qed.

Lemma readings_rate_limited_witness :
  clock_monotone 0 (steady_passes 1000 200) /\
  lightReadInterval * Z.of_nat (length (serviced_reads setup (steady_passes 1000 200)))
  <= lastLightReadTime (run_passes setup (steady_passes 1000 200)) - lastLightReadTime setup.
Proof.
  assert (clock_monotone 0 (steady_passes 1000 200)) as Hclock.
  { vm_compute. repeat split; discriminate. }
  split; [exact Hclock |].
  apply (readings_rate_limited setup 0 (steady_passes 1000 200)); [| exact Hclock].
  vm_compute. split; discriminate.
Defined.

(** ** The write index *)

Lemma inserts_index st vs :
  index_ok st ->
  lightReadIndex (inserts st vs)
  = (lightReadIndex st + Z.of_nat (length vs)) mod lightAverageWindow.
Proof.
  revert st. induction vs as [|v vs IH]; intros st Hi.
  - simpl. rewrite Z.add_0_r. symmetry. apply Z.mod_small. exact Hi.
  - change (inserts st (v :: vs))
      with (inserts (updateLightAverage st (fst v) (snd v)) vs).
    rewrite IH by now apply update_index_ok.
    rewrite (update_index _ _ _ Hi), Zplus_mod_idemp_l.
    f_equal. cbn [length]. lia.
Qed.

(** X5: the write index counts the readings modulo the window size: after a
    run of passes it is the starting index plus the number of serviced
    passes, modulo 10; after [setup] it is that number modulo 10, and ten
    serviced passes bring it back to where it was. *)
Theorem index_counts_readings (st : State) (ps : list Pass) :
  index_ok st ->
  lightReadIndex (run_passes st ps)
  = (lightReadIndex st + Z.of_nat (length (serviced_reads st ps))) mod lightAverageWindow /\
  lightReadIndex (run_passes setup ps)
  = Z.of_nat (length (serviced_reads setup ps)) mod lightAverageWindow /\
  (length (serviced_reads st ps) = 10%nat ->
   lightReadIndex (run_passes st ps) = lightReadIndex st).
Proof.
  intros Hi.
  assert (forall s, index_ok s ->
            lightReadIndex (run_passes s ps)
            = (lightReadIndex s + Z.of_nat (length (serviced_reads s ps)))
                mod lightAverageWindow) as Hcount.
  { intros s Hs.
    pose proof (f_equal (fun f => snd (fst (fst f))) (run_passes_filters s ps)) as Hf.
    cbn [filters fst snd] in Hf. rewrite Hf. now apply inserts_index. }
  split; [now apply Hcount |].
  split; [apply (Hcount setup), setup_inv |].
  intros Hten. rewrite (Hcount st Hi), Hten.
  unfold index_ok in Hi. change lightAverageWindow with 10 in *.
  change (Z.of_nat 10) with (1 * 10). rewrite Z.mod_add by lia.
  apply Z.mod_small. exact Hi.
Qed.

Lemma index_counts_readings_witness :
  index_ok setup /\
  lightReadIndex (run_passes setup (steady_passes 1000 200)) = lightReadIndex setup.
Proof.
  assert (index_ok setup) as Hi by apply setup_inv.
  split; [exact Hi |].
  apply (index_counts_readings setup (steady_passes 1000 200) Hi). reflexivity.
Defined.

(** ** Exchanging the two sensors *)

Lemma classify_mirror s1 s2 :
  - sample_bound <= s1 <= sample_bound ->
  - sample_bound <= s2 <= sample_bound ->
  classify s2 s1 = mirror (classify s1 s2).
Proof.
  intros H1 H2. rewrite !classify_exact by assumption.
  replace (s2 - s1) with (- (s1 - s2)) by lia. rewrite Z.abs_opp.
  unfold Neutral, Up, Down.
  destruct (Z.leb_spec (Z.abs (s1 - s2)) equalityThreshold); [reflexivity |].
  change equalityThreshold with 50 in *.
  destruct (Z.gtb_spec s1 s2), (Z.gtb_spec s2 s1); try reflexivity; lia.
Qed.

Lemma update_smoothed_bounds_of st v1 v2 u :
  u = updateLightAverage st v1 v2 ->
  - sample_bound <= smoothedLight1 u <= sample_bound /\
  - sample_bound <= smoothedLight2 u <= sample_bound.
Proof. intros ->. apply update_smoothed_bounds. Qed.

Lemma handle_swap st now r1 r2 :
  handleInput (swap_channels st) now r2 r1 = swap_channels (handleInput st now r1 r2).
Proof.
  unfold handleInput.
  change (serviced (swap_channels st) now) with (serviced st now).
  destruct (serviced st now); [| reflexivity].
  set (U := updateLightAverage _ r1 r2). set (U' := updateLightAverage _ r2 r1).
  assert (lightValue1 U' = lightValue2 U) as V1 by reflexivity.
  assert (lightValue2 U' = lightValue1 U) as V2 by reflexivity.
  assert (smoothedLight1 U' = smoothedLight2 U) as S1 by reflexivity.
  assert (smoothedLight2 U' = smoothedLight1 U) as S2 by reflexivity.
  assert (lightReadings1 U' = lightReadings2 U) as R1 by reflexivity.
  assert (lightReadings2 U' = lightReadings1 U) as R2 by reflexivity.
  assert (lightReadIndex U' = lightReadIndex U) as I by reflexivity.
  assert (lightTotalValue1 U' = lightTotalValue2 U) as T1 by reflexivity.
  assert (lightTotalValue2 U' = lightTotalValue1 U) as T2 by reflexivity.
  destruct (update_smoothed_bounds_of _ _ _ U eq_refl) as [B1 B2].
  clearbody U U'.
  rewrite V1, V2, S1, S2, R1, R2, I, T1, T2.
  unfold swap_channels.
  cbn [currentMovement lightValue1 lightValue2 smoothedLight1 smoothedLight2
       lastLightReadTime lightReadings1 lightReadings2 lightReadIndex
       lightTotalValue1 lightTotalValue2].
  now rewrite (classify_mirror _ _ B1 B2).
Qed.

(** X6: exchanging the two sensors exchanges Up and Down.  Running the
    sketch on the state with the channels exchanged and the readings of
    every pass exchanged gives the exchanged state, whose movement code is
    the mirrored one (Neutral stays Neutral); this holds for every state and
    every reading. *)
Theorem swapped_sensors_mirror (st : State) (ps : list Pass) :
  run_passes (swap_channels st) (map swap_pass ps) = swap_channels (run_passes st ps) /\
  currentMovement (run_passes (swap_channels st) (map swap_pass ps))
  = mirror (currentMovement (run_passes st ps)) /\
  mirror Up = Down /\ mirror Down = Up /\ mirror Neutral = Neutral.
Proof.
  assert (run_passes (swap_channels st) (map swap_pass ps)
          = swap_channels (run_passes st ps)) as Hrun.
  { revert st. induction ps as [|p ps IH]; intros st; [reflexivity |].
    change (run_passes st (p :: ps))
      with (run_passes (handleInput st (p_now p) (p_raw1 p) (p_raw2 p)) ps).
    rewrite <- IH, <- handle_swap. reflexivity. }
  split; [exact Hrun |]. rewrite Hrun. repeat split; reflexivity.
Qed.

(** ** The output as a function of the buffers *)

Lemma filters_fields a b :
  filters a = filters b ->
  lightReadings1 a = lightReadings1 b /\ lightReadings2 a = lightReadings2 b /\
  lightReadIndex a = lightReadIndex b /\
  lightTotalValue1 a = lightTotalValue1 b /\ lightTotalValue2 a = lightTotalValue2 b.
Proof.
  intros Hf.
  pose proof (f_equal (fun f => fst (fst (fst (fst f)))) Hf) as R1.
  pose proof (f_equal (fun f => snd (fst (fst (fst f)))) Hf) as R2.
  pose proof (f_equal (fun f => snd (fst (fst f))) Hf) as I.
  pose proof (f_equal (fun f => snd (fst f)) Hf) as T1.
  pose proof (f_equal snd Hf) as T2.
  cbn [filters fst snd] in R1, R2, I, T1, T2. auto.
Qed.

(** After a serviced call the smoothed values are the quotients of the sums
    that call left, and the movement code is their classification. *)
Lemma handle_serviced_coherent st now r1 r2 :
  serviced st now = true -> coherent (handleInput st now r1 r2).
Proof.
  intros Hs.
  destruct (handle_serviced st now r1 r2 Hs) as (S1 & S2 & Hm & _).
  destruct (filters_fields _ _ (handle_filters st now r1 r2 Hs)) as (_ & _ & _ & T1 & T2).
  unfold coherent. rewrite Hm, S1, S2, T1, T2.
  split; [apply update_smoothed1 |]. split; [apply update_smoothed2 | reflexivity].
Qed.

Lemma handle_coherent st now r1 r2 :
  coherent st -> coherent (handleInput st now r1 r2).
Proof.
  intros Hc. destruct (serviced st now) eqn:Hs.
  - now apply handle_serviced_coherent.
  - now rewrite handle_closed.
Qed.

Lemma run_passes_coherent st ps : coherent st -> coherent (run_passes st ps).
Proof.
  revert st. induction ps as [|p ps IH]; intros st Hc; [exact Hc |].
  apply IH, handle_coherent, Hc.
Qed.

Lemma setup_coherent : coherent setup.
Proof. repeat split. Qed.

(** X7: at every point of every run after [setup] the two smoothed values
    are the truncated quotients of the current running sums by the window
    size and the movement code is the classification of those two values,
    whether or not the last pass was serviced; the same holds from any state
    in which it holds. *)
Theorem output_follows_buffers (st : State) (ps : list Pass) :
  coherent (run_passes setup ps) /\
  (filter_inv st -> coherent st ->
   let st' := run_passes st ps in
   smoothedLight1 st' = Z.quot (to_long (sumZ (lightReadings1 st'))) lightAverageWindow /\
   smoothedLight2 st' = Z.quot (to_long (sumZ (lightReadings2 st'))) lightAverageWindow /\
   currentMovement st' = classify (smoothedLight1 st') (smoothedLight2 st')).
Proof.
  split; [apply run_passes_coherent, setup_coherent |].
  intros Hinv Hc st'.
  destruct (run_passes_coherent st ps Hc) as (S1 & S2 & Hm).
  destruct (run_passes_inv st ps Hinv) as (_ & _ & T1 & T2).
  fold st' in S1, S2, Hm, T1, T2.
  rewrite <- T1, <- T2. auto.
Qed.

Lemma output_follows_buffers_witness :
  filter_inv setup /\ coherent setup /\
  currentMovement (run_passes setup (steady_passes 1000 200))
  = classify (smoothedLight1 (run_passes setup (steady_passes 1000 200)))
             (smoothedLight2 (run_passes setup (steady_passes 1000 200))).
Proof.
  split; [exact setup_inv |]. split; [exact setup_coherent |].
  destruct (output_follows_buffers setup (steady_passes 1000 200)) as [_ H].
  apply (H setup_inv setup_coherent).
Defined.

(** ** Arithmetic of the truncated mean *)

Lemma quot_window_facts z :
  (0 <= z -> 10 * Z.quot z 10 <= z < 10 * Z.quot z 10 + 10) /\
  (z <= 0 -> 10 * Z.quot z 10 - 10 < z <= 10 * Z.quot z 10).
Proof.
  pose proof (Z.quot_rem' z 10) as Hqr.
  pose proof (Z.rem_bound_abs z 10) as Hr.
  split; intros Hz.
  - pose proof (Z.mul_quot_le z 10). lia.
  - pose proof (Z.mul_quot_ge z 10). lia.
Qed.

(** Sums that differ by at most ten times [d] have truncated means that
    differ by at most [d]. *)
Lemma quot_close a b d :
  0 <= d -> Z.abs (a - b) <= 10 * d -> Z.abs (Z.quot a 10 - Z.quot b 10) <= d.
Proof.
  intros Hd Hab.
  destruct (quot_window_facts a) as [Ap An], (quot_window_facts b) as [Bp Bn].
  destruct (Z_le_gt_dec 0 a), (Z_le_gt_dec 0 b); lia.
Qed.

(** For non-negative sums a gap of ten times [d] is a gap of [d] between
    the truncated means. *)
Lemma quot_gap a b d :
  0 <= b -> b + 10 * d <= a -> 0 <= d -> Z.quot b 10 + d <= Z.quot a 10.
Proof.
  intros Hb Hab Hd.
  destruct (quot_window_facts a) as [Ap _], (quot_window_facts b) as [Bp _]. lia.
Qed.

Lemma sumZ_close (l1 l2 : list Z) d :
  Forall2 (fun x y => Z.abs (x - y) <= d) l1 l2 ->
  Z.abs (sumZ l1 - sumZ l2) <= Z.of_nat (length l1) * d.
Proof.
  induction 1 as [|x y l1 l2 Hxy _ IH]; [simpl; lia |].
  change (sumZ (x :: l1)) with (x + sumZ l1).
  change (sumZ (y :: l2)) with (y + sumZ l2).
  cbn [length]. lia.
Qed.

Lemma sumZ_gap (l1 l2 : list Z) d :
  Forall2 (fun x y => y + d <= x) l1 l2 ->
  sumZ l2 + Z.of_nat (length l1) * d <= sumZ l1.
Proof.
  induction 1 as [|x y l1 l2 Hxy _ IH]; [simpl; lia |].
  change (sumZ (x :: l1)) with (x + sumZ l1).
  change (sumZ (y :: l2)) with (y + sumZ l2).
  cbn [length]. lia.
Qed.

(** Ten samples of magnitude at most [sample_bound] add up inside a [long]. *)
Lemma window_sum_exact (buf : list Z) :
  length buf = 10%nat ->
  within (- sample_bound) sample_bound buf ->
  to_long (sumZ buf) = sumZ buf.
Proof.
  intros Hlen Hall. apply wrap_signed_id.
  pose proof (sumZ_bounded _ _ _ Hall) as Hb. rewrite Hlen in Hb.
  revert Hb. change sample_bound with 214748364.
  unfold Width.in_signed, Width.INT_MIN, Width.INT_MAX. rewrite half_value. lia.
Qed.

(** What a coherent state with buffers in range holds: exact sums, their
    truncated means, and the exact classification. *)
Lemma coherent_exact st :
  filter_inv st -> coherent st ->
  within (- sample_bound) sample_bound (lightReadings1 st) ->
  within (- sample_bound) sample_bound (lightReadings2 st) ->
  smoothedLight1 st = Z.quot (sumZ (lightReadings1 st)) 10 /\
  smoothedLight2 st = Z.quot (sumZ (lightReadings2 st)) 10 /\
  currentMovement st
  = if Z.abs (smoothedLight1 st - smoothedLight2 st) <=? equalityThreshold then Neutral
    else if smoothedLight1 st >? smoothedLight2 st then Up else Down.
Proof.
  intros ([L1 L2] & _ & T1 & T2) (S1 & S2 & Hm) W1 W2.
  rewrite window_nat in L1, L2.
  rewrite (window_sum_exact _ L1 W1) in T1. rewrite (window_sum_exact _ L2 W2) in T2.
  rewrite T1 in S1. rewrite T2 in S2. change lightAverageWindow with 10 in S1, S2.
  split; [exact S1 |]. split; [exact S2 |].
  rewrite Hm. apply classify_exact.
  - rewrite S1, <- T1. apply quot_window_bound. rewrite T1, <- (window_sum_exact _ L1 W1).
    apply to_long_range.
  - rewrite S2, <- T2. apply quot_window_bound. rewrite T2, <- (window_sum_exact _ L2 W2).
    apply to_long_range.
Qed.

(** X8: in a state the sketch can be in (filter invariant, output coherent
    with the sums) whose buffered samples are of magnitude at most
    [sample_bound], if every buffered left sample is within the threshold of
    the right sample in the same slot, the movement code is Neutral. *)
Theorem close_channels_are_neutral (st : State) :
  filter_inv st -> coherent st ->
  within (- sample_bound) sample_bound (lightReadings1 st) ->
  within (- sample_bound) sample_bound (lightReadings2 st) ->
  Forall2 (fun x y => Z.abs (x - y) <= equalityThreshold)
          (lightReadings1 st) (lightReadings2 st) ->
  Z.abs (smoothedLight1 st - smoothedLight2 st) <= equalityThreshold /\
  currentMovement st = Neutral.
Proof.
  intros Hinv Hc W1 W2 Hclose.
  destruct (coherent_exact st Hinv Hc W1 W2) as (S1 & S2 & Hm).
  pose proof (sumZ_close _ _ _ Hclose) as Hsum.
  destruct Hinv as ([L1 _] & _). rewrite L1, window_nat in Hsum.
  assert (Z.abs (smoothedLight1 st - smoothedLight2 st) <= equalityThreshold) as Hd.
  { rewrite S1, S2. apply quot_close; [unfold equalityThreshold; lia |].
    change (Z.of_nat 10) with 10 in Hsum. exact Hsum. }
  split; [exact Hd |]. rewrite Hm.
  destruct (Z.leb_spec (Z.abs (smoothedLight1 st - smoothedLight2 st)) equalityThreshold);
    [reflexivity | lia].
Qed.

(** X9: in such a state with non-negative buffered samples, if every
    buffered left sample exceeds the right sample in the same slot by more
    than the threshold the movement code is Up, and if every right sample
    exceeds the left one by more than the threshold it is Down. *)
Theorem separated_channels_move (st : State) :
  filter_inv st -> coherent st ->
  within 0 sample_bound (lightReadings1 st) ->
  within 0 sample_bound (lightReadings2 st) ->
  (Forall2 (fun x y => y + (equalityThreshold + 1) <= x)
           (lightReadings1 st) (lightReadings2 st) ->
   currentMovement st = Up) /\
  (Forall2 (fun x y => y + (equalityThreshold + 1) <= x)
           (lightReadings2 st) (lightReadings1 st) ->
   currentMovement st = Down).
Proof.
  intros Hinv Hc W1 W2.
  assert (forall buf, within 0 sample_bound buf ->
            within (- sample_bound) sample_bound buf /\ 0 <= sumZ buf) as Hnonneg.
  { intros buf Hw. split.
    - eapply Forall_impl; [exact Hw |]. simpl. change sample_bound with 214748364. lia.
    - pose proof (sumZ_bounded _ _ _ Hw). lia. }
  destruct (Hnonneg _ W1) as [W1' P1], (Hnonneg _ W2) as [W2' P2].
  destruct (coherent_exact st Hinv Hc W1' W2') as (S1 & S2 & Hm).
  destruct Hinv as ([L1 L2] & _). rewrite window_nat in L1, L2.
  change equalityThreshold with 50 in *.
  split; intros Hgap; pose proof (sumZ_gap _ _ _ Hgap) as Hsum;
    rewrite ?L1, ?L2 in Hsum; change (Z.of_nat 10) with 10 in Hsum; rewrite Hm.
  - assert (Z.quot (sumZ (lightReadings2 st)) 10 + 51
            <= Z.quot (sumZ (lightReadings1 st)) 10) as Hq
      by (apply quot_gap; lia).
    rewrite <- S1, <- S2 in Hq.
    destruct (Z.leb_spec (Z.abs (smoothedLight1 st - smoothedLight2 st)) 50); [lia |].
    destruct (Z.gtb_spec (smoothedLight1 st) (smoothedLight2 st)); [reflexivity | lia].
  - assert (Z.quot (sumZ (lightReadings1 st)) 10 + 51
            <= Z.quot (sumZ (lightReadings2 st)) 10) as Hq
      by (apply quot_gap; lia).
    rewrite <- S1, <- S2 in Hq.
    destruct (Z.leb_spec (Z.abs (smoothedLight1 st - smoothedLight2 st)) 50); [lia |].
    destruct (Z.gtb_spec (smoothedLight1 st) (smoothedLight2 st)); [lia | reflexivity].
Qed.

Lemma close_channels_are_neutral_witness :
  let st := run_passes setup (steady_passes 520 500) in
  lightReadings1 st = replicate 10 520 /\
  lightReadings2 st = replicate 10 500 /\
  currentMovement st = Neutral.
Proof.
  intros st.
  assert (lightReadings1 st = replicate 10 520) as R1 by (vm_compute; reflexivity).
  assert (lightReadings2 st = replicate 10 500) as R2 by (vm_compute; reflexivity).
  split; [exact R1 |]. split; [exact R2 |].
  apply (close_channels_are_neutral st).
  - apply run_passes_inv, setup_inv.
  - apply run_passes_coherent, setup_coherent.
  - rewrite R1. apply Forall_replicate. change sample_bound with 214748364. lia.
  - rewrite R2. apply Forall_replicate. change sample_bound with 214748364. lia.
  - rewrite R1, R2. unfold equalityThreshold. repeat constructor; lia.
Defined.

Lemma separated_channels_move_witness :
  currentMovement (run_passes setup (steady_passes 1000 200)) = Up /\
  currentMovement (run_passes setup (steady_passes 200 1000)) = Down.
Proof.
  assert (forall a b, within 0 sample_bound (replicate 10 a) ->
            within 0 sample_bound (replicate 10 b) ->
            lightReadings1 (run_passes setup (steady_passes a b)) = replicate 10 a ->
            lightReadings2 (run_passes setup (steady_passes a b)) = replicate 10 b ->
            (b + 51 <= a -> currentMovement (run_passes setup (steady_passes a b)) = Up) /\
            (a + 51 <= b -> currentMovement (run_passes setup (steady_passes a b)) = Down))
    as Hboth.
  { intros a b W1 W2 R1 R2.
    destruct (separated_channels_move (run_passes setup (steady_passes a b)))
      as [Hup Hdown].
    - apply run_passes_inv, setup_inv.
    - apply run_passes_coherent, setup_coherent.
    - now rewrite R1.
    - now rewrite R2.
    - split; intros Hgap; [apply Hup | apply Hdown]; rewrite R1, R2;
        unfold equalityThreshold; repeat constructor; lia. }
  assert (forall a, 0 <= a <= 1000 -> within 0 sample_bound (replicate 10 a)) as Hw.
  { intros a Ha. apply Forall_replicate. change sample_bound with 214748364. lia. }
  split.
  - apply (Hboth 1000 200); try (apply Hw; lia); try lia; vm_compute; reflexivity.
  - apply (Hboth 200 1000); try (apply Hw; lia); try lia; vm_compute; reflexivity.
Defined.

(** ** Readings in a range *)

Lemma handle_readings st now r1 r2 :
  serviced st now = true ->
  lightReadings1 (handleInput st now r1 r2)
    = array_set (lightReadings1 st) (lightReadIndex st) r1 /\
  lightReadings2 (handleInput st now r1 r2)
    = array_set (lightReadings2 st) (lightReadIndex st) r2 /\
  lightTotalValue1 (handleInput st now r1 r2)
    = lightTotalValue1 (updateLightAverage st r1 r2) /\
  lightTotalValue2 (handleInput st now r1 r2)
    = lightTotalValue2 (updateLightAverage st r1 r2).
Proof.
  intros Hs.
  destruct (filters_fields _ _ (handle_filters st now r1 r2 Hs)) as (R1 & R2 & _ & T1 & T2).
  rewrite R1, R2, T1, T2. repeat split.
Qed.

Lemma quot_between lo hi z :
  10 * lo <= z <= 10 * hi -> lo <= Z.quot z 10 <= hi.
Proof.
  intros Hz. destruct (quot_window_facts z) as [Hp Hn].
  destruct (Z_le_gt_dec 0 z); lia.
Qed.

Lemma handle_within lo hi st now r1 r2 :
  lo <= r1 <= hi -> lo <= r2 <= hi ->
  within lo hi (lightReadings1 st) /\ within lo hi (lightReadings2 st) ->
  within lo hi (lightReadings1 (handleInput st now r1 r2)) /\
  within lo hi (lightReadings2 (handleInput st now r1 r2)).
Proof.
  intros H1 H2 [W1 W2]. destruct (serviced st now) eqn:Hs.
  - destruct (handle_readings st now r1 r2 Hs) as (R1 & R2 & _).
    rewrite R1, R2. unfold array_set, within.
    split; apply Forall_insert; assumption.
  - rewrite handle_closed by exact Hs. auto.
Qed.

(** X10: the smoothed values stay inside the range of the readings.  If
    every reading of a run after [setup] lies in [lo, hi], where
    -sample_bound <= lo <= 0 <= hi <= sample_bound (for the ADC: 0..1023),
    then at the end of the run every buffered sample and both smoothed
    values lie in [lo, hi]. *)
Theorem smoothed_stays_in_range (lo hi : Z) (ps : list Pass) :
  - sample_bound <= lo -> lo <= 0 -> 0 <= hi -> hi <= sample_bound ->
  Forall (fun p => lo <= p_raw1 p <= hi /\ lo <= p_raw2 p <= hi) ps ->
  let st := run_passes setup ps in
  within lo hi (lightReadings1 st) /\ within lo hi (lightReadings2 st) /\
  lo <= smoothedLight1 st <= hi /\ lo <= smoothedLight2 st <= hi.
Proof.
  intros Hlo Hlo0 Hhi0 Hhi Hreads st.
  assert (within lo hi (lightReadings1 st) /\ within lo hi (lightReadings2 st)) as [W1 W2].
  { subst st.
    assert (within lo hi (lightReadings1 setup) /\ within lo hi (lightReadings2 setup)) as H0.
    { split; apply (Forall_replicate _ 10 0); lia. }
    revert H0. generalize setup as s. induction Hreads as [|p ps [Hp1 Hp2] _ IH]; intros s H0.
    - exact H0.
    - apply (IH (handleInput s (p_now p) (p_raw1 p) (p_raw2 p))).
      now apply handle_within. }
  assert (forall buf, within lo hi buf -> within (- sample_bound) sample_bound buf) as Hwide.
  { intros buf Hw. eapply Forall_impl; [exact Hw |]. simpl. lia. }
  destruct (coherent_exact st) as (S1 & S2 & _);
    [apply run_passes_inv, setup_inv | apply run_passes_coherent, setup_coherent
    | now apply Hwide | now apply Hwide |].
  assert (length (lightReadings1 st) = 10%nat /\ length (lightReadings2 st) = 10%nat)
    as [L1 L2] by (apply (run_passes_inv setup ps setup_inv)).
  split; [exact W1 |]. split; [exact W2 |].
  pose proof (sumZ_bounded _ _ _ W1) as B1. pose proof (sumZ_bounded _ _ _ W2) as B2.
  rewrite L1 in B1. rewrite L2 in B2. change (Z.of_nat 10) with 10 in B1, B2.
  rewrite S1, S2. split; apply quot_between; assumption.
Qed.

Lemma smoothed_stays_in_range_witness :
  let st := run_passes setup (steady_passes 1000 200) in
  0 <= smoothedLight1 st <= 1023 /\ 0 <= smoothedLight2 st <= 1023.
Proof.
  intros st.
  destruct (smoothed_stays_in_range 0 1023 (steady_passes 1000 200)) as (_ & _ & H);
    try (change sample_bound with 214748364; lia).
  - unfold steady_passes. apply Forall_fmap, Forall_forall. intros k _. simpl. lia.
  - exact H.
Defined.

(** ** Equal readings *)

Lemma classify_same s : classify s s = Neutral.
Proof. unfold classify. rewrite Z.sub_diag. reflexivity. Qed.

Lemma handle_balanced st now r :
  balanced st -> currentMovement st = Neutral ->
  balanced (handleInput st now r r) /\
  currentMovement (handleInput st now r r) = Neutral.
Proof.
  intros [R T] Hm. destruct (serviced st now) eqn:Hs.
  - destruct (handle_readings st now r r Hs) as (R1 & R2 & T1 & T2).
    destruct (handle_serviced st now r r Hs) as (_ & _ & Hc & _).
    assert (lightTotalValue1 (updateLightAverage st r r)
            = lightTotalValue2 (updateLightAverage st r r)) as Teq
      by (simpl; now rewrite R, T).
    split; [split |].
    + now rewrite R1, R2, R.
    + now rewrite T1, T2.
    + rewrite Hc, update_smoothed1, update_smoothed2, Teq. apply classify_same.
  - rewrite handle_closed by exact Hs. split; [split |]; assumption.
Qed.

(** X11: when both sensors deliver the same reading on every pass, the
    paddle stays still: from a state whose two channels hold the same
    samples and sums and whose movement code is Neutral (as after [setup]),
    every such run ends with the channels still equal and the movement code
    Neutral, whatever the readings and the clock are. *)
Theorem equal_readings_stay_neutral (st : State) (ps : list Pass) :
  balanced st -> currentMovement st = Neutral ->
  Forall (fun p => p_raw1 p = p_raw2 p) ps ->
  balanced (run_passes st ps) /\
  currentMovement (run_passes st ps) = Neutral.
Proof.
  intros Hb Hm Hreads. revert st Hb Hm.
  induction Hreads as [|p ps Hp _ IH]; intros st Hb Hm; [auto |].
  change (run_passes st (p :: ps))
    with (run_passes (handleInput st (p_now p) (p_raw1 p) (p_raw2 p)) ps).
  rewrite Hp. destruct (handle_balanced st (p_now p) (p_raw2 p) Hb Hm) as [Hb' Hm'].
  now apply IH.
Qed.

Lemma equal_readings_stay_neutral_witness :
  balanced setup /\
  currentMovement (run_passes setup (steady_passes 777 777)) = Neutral.
Proof.
  assert (balanced setup) as Hb by (split; reflexivity).
  split; [exact Hb |].
  apply (equal_readings_stay_neutral setup (steady_passes 777 777) Hb eq_refl).
  unfold steady_passes. apply Forall_fmap, Forall_forall. intros k _. reflexivity.
Defined.

(** ** Warm-up after a reset *)

Lemma map_replicate {A B : Type} (f : A -> B) n (x : A) :
  map f (replicate n x) = replicate n (f x).
Proof. induction n as [|n IH]; [reflexivity |]. simpl. now rewrite IH. Qed.

(** The window after a reset and [k] equal samples holds min(k, 10) copies
    of the sample and zeros otherwise. *)
Lemma sumZ_warm_up k v :
  sumZ (lastn 10 (replicate 10 0 ++ replicate k v)) = Z.of_nat (Nat.min k 10) * v.
Proof.
  unfold lastn. rewrite length_app, !length_replicate.
  replace (10 + k - 10)%nat with k by lia.
  destruct (le_lt_dec k 10) as [Hle|Hgt].
  - rewrite drop_app_le by (rewrite length_replicate; lia).
    rewrite drop_replicate, sumZ_app, !sumZ_replicate.
    rewrite Nat.min_l by lia. lia.
  - rewrite drop_app_ge by (rewrite length_replicate; lia).
    rewrite length_replicate, drop_replicate, sumZ_replicate.
    rewrite Nat.min_r by lia. f_equal. lia.
Qed.

(** X12: step response.  After a reset, [k] >= 1 inserts of the same pair
    (v, w), each of magnitude at most [sample_bound], leave the smoothed
    values at min(k, 10) * v / 10 and min(k, 10) * w / 10 (truncated): the
    output ramps up over the first ten inserts and then stays at the
    sample. *)
Theorem warm_up_ramp (st0 : State) (k : nat) (v w : Z) :
  array_shape st0 -> (1 <= k)%nat ->
  - sample_bound <= v <= sample_bound ->
  - sample_bound <= w <= sample_bound ->
  let st := inserts (initializeLightAverage st0) (replicate k (v, w)) in
  smoothedLight1 st = Z.quot (Z.of_nat (Nat.min k 10) * v) lightAverageWindow /\
  smoothedLight2 st = Z.quot (Z.of_nat (Nat.min k 10) * w) lightAverageWindow /\
  ((10 <= k)%nat -> smoothedLight1 st = v /\ smoothedLight2 st = w).
Proof.
  intros Hs Hk Hv Hw st.
  pose proof (initialize_inv st0 Hs) as Hinv.
  assert (replicate k (v, w) <> []) as Hne by (destruct k; [lia | discriminate]).
  destruct (inserts_smoothed_nonempty _ _ Hinv Hne) as [Q1 Q2].
  destruct (after_reset_history st0 Hs (replicate k (v, w))) as [H1 H2].
  fold st in Q1, Q2, H1, H2.
  rewrite H1, map_replicate, sumZ_warm_up in Q1.
  rewrite H2, map_replicate, sumZ_warm_up in Q2. cbn [fst snd] in Q1, Q2.
  assert (forall x, - sample_bound <= x <= sample_bound ->
            to_long (Z.of_nat (Nat.min k 10) * x) = Z.of_nat (Nat.min k 10) * x) as Hfit.
  { intros x Hx. apply wrap_signed_id. revert Hx. change sample_bound with 214748364.
    unfold Width.in_signed, Width.INT_MIN, Width.INT_MAX. rewrite half_value.
    intros Hx. assert (0 <= Z.of_nat (Nat.min k 10) <= 10) by lia. nia. }
  rewrite (Hfit v Hv) in Q1. rewrite (Hfit w Hw) in Q2.
  split; [exact Q1 |]. split; [exact Q2 |].
  intros Hfull. rewrite Q1, Q2, Nat.min_r by lia.
  change (Z.of_nat 10) with 10. change lightAverageWindow with 10.
  rewrite !(Z.mul_comm 10). split; apply Z.quot_mul; lia.
Qed.

Lemma warm_up_ramp_witness :
  array_shape power_on /\
  smoothedLight1 (inserts setup (replicate 3 (1000, 200))) = 300 /\
  smoothedLight2 (inserts setup (replicate 3 (1000, 200))) = 60.
Proof.
  assert (array_shape power_on) as Hs by (split; reflexivity).
  split; [exact Hs |].
  destruct (warm_up_ramp power_on 3 1000 200 Hs) as (H1 & H2 & _);
    try (change sample_bound with 214748364; lia).
  split; [exact H1 | exact H2].
Defined.

(** ** Reset *)

(** X13: [initializeLightAverage] forgets the whole sample history, whatever
    it was: on arrays of the declared size it leaves both buffers all zero,
    both sums 0 and the index 0, so the filters are those of [setup]; it is
    idempotent; and it does not touch the movement code, the smoothed
    values, the raw values or the time of the last reading. *)
Theorem reset_forgets_history (st : State) :
  array_shape st ->
  let st' := initializeLightAverage st in
  filters st' = filters setup /\
  initializeLightAverage st' = st' /\
  currentMovement st' = currentMovement st /\
  smoothedLight1 st' = smoothedLight1 st /\
  smoothedLight2 st' = smoothedLight2 st /\
  lightValue1 st' = lightValue1 st /\
  lightValue2 st' = lightValue2 st /\
  lastLightReadTime st' = lastLightReadTime st.
Proof.
  intros Hs st'.
  assert (forall s, array_shape s ->
            initializeLightAverage s
            = {| currentMovement := currentMovement s;
                 lightValue1 := lightValue1 s; lightValue2 := lightValue2 s;
                 smoothedLight1 := smoothedLight1 s; smoothedLight2 := smoothedLight2 s;
                 lastLightReadTime := lastLightReadTime s;
                 lightReadings1 := replicate 10 0; lightReadings2 := replicate 10 0;
                 lightReadIndex := 0; lightTotalValue1 := 0; lightTotalValue2 := 0 |})
    as Hinit.
  { intros s [H1 H2]. unfold initializeLightAverage.
    pose proof (zero_fill_spec (Z.to_nat lightAverageWindow) 0
                  (lightReadings1 s) (lightReadings2 s)) as Hfill.
    change (Z.of_nat 0) with 0 in Hfill.
    rewrite Hfill; [reflexivity | | exact H1 | exact H2].
    rewrite window_nat. unfold Width.INT_MAX. rewrite half_value. lia. }
  assert (array_shape st') as Hs' by apply (initialize_inv st Hs).
  split; [| split].
  - unfold st'. rewrite (Hinit st Hs). reflexivity.
  - rewrite (Hinit st' Hs'). unfold st'. rewrite (Hinit st Hs). reflexivity.
  - unfold st'. rewrite (Hinit st Hs). repeat split.
Qed.

Lemma reset_forgets_history_witness :
  let st := run_passes setup (steady_passes 1000 200) in
  array_shape st /\
  filters (initializeLightAverage st) = filters setup /\
  currentMovement (initializeLightAverage st) = Up.
Proof.
  intros st.
  assert (array_shape st) as Hs by apply run_passes_inv, setup_inv.
  destruct (reset_forgets_history st Hs) as (Hf & _ & Hm & _).
  split; [exact Hs |]. split; [exact Hf |].
  rewrite Hm. vm_compute. reflexivity.
Defined.

(** ** Passes that are not serviced *)

(** X14: passes that fall inside the read interval leave no trace.  The
    state after a run is the state after its serviced passes alone, in
    which every pass is serviced again and delivers the same readings; a
    run without serviced passes returns the state unchanged. *)
Theorem unserviced_passes_invisible (st : State) (ps : list Pass) :
  run_passes st ps = run_passes st (serviced_passes st ps) /\
  serviced_passes st (serviced_passes st ps) = serviced_passes st ps /\
  serviced_reads st ps = map (fun p => (p_raw1 p, p_raw2 p)) (serviced_passes st ps) /\
  (serviced_passes st ps = [] -> run_passes st ps = st).
Proof.
  revert st. induction ps as [|p ps IH]; intros st; [repeat split |].
  change (run_passes st (p :: ps))
    with (run_passes (handleInput st (p_now p) (p_raw1 p) (p_raw2 p)) ps).
  cbn [serviced_passes serviced_reads].
  destruct (IH (handleInput st (p_now p) (p_raw1 p) (p_raw2 p))) as (Hrun & Hidem & Hreads & Hnone).
  destruct (serviced st (p_now p)) eqn:Hs.
  - cbn [serviced_passes map]. rewrite Hs, Hidem, <- Hreads.
    repeat split; [exact Hrun | discriminate].
  - rewrite (handle_closed _ _ _ _ Hs) in *. auto.
Qed.

(** X15: nothing is read during the first read interval after boot: while
    the clock is below [lightReadInterval], every pass after [setup] leaves
    the state as [setup] left it and hands Neutral to [sendMovement] and
    [updateBuzzer]. *)
Theorem quiet_until_first_interval (ps : list Pass) :
  Forall (fun p => 0 <= p_now p < lightReadInterval) ps ->
  fst (run_loop setup ps) = setup /\
  Forall (fun c => c = CallUpdateBLE \/ c = CallSendMovement Neutral
                   \/ c = CallUpdateBuzzer Neutral)
         (snd (run_loop setup ps)).
Proof.
  induction 1 as [|p ps Hp _ IH]; [split; [reflexivity | constructor] |].
  cbn [run_loop loop].
  assert (handleInput setup (p_now p) (p_raw1 p) (p_raw2 p) = setup) as ->.
  { apply handle_closed, not_serviced_spec.
    change (lastLightReadTime setup) with 0. rewrite Z.sub_0_r.
    unfold lightReadInterval in *. rewrite Z.mod_small; lia. }
  destruct (run_loop setup ps) as [st' later]. destruct IH as [Hst Hcalls].
  cbn [fst snd] in *. split; [exact Hst |].
  repeat (constructor; [auto |]). exact Hcalls.
Qed.

Lemma quiet_until_first_interval_witness :
  fst (run_loop setup [mkPass 0 1000 200; mkPass 20 1000 200; mkPass 49 1000 200]) = setup.
Proof.
  apply (quiet_until_first_interval
           [mkPass 0 1000 200; mkPass 20 1000 200; mkPass 49 1000 200]).
  repeat constructor; simpl; unfold lightReadInterval; lia.
Defined.

(** ** One reading at a time *)

(** X16: one reading moves a smoothed value only a little.  In a state the
    sketch can be in, with the buffered samples of a channel and the new
    reading in [lo, hi] (within the sample bound) and hi - lo <= 10 * d, the
    smoothed value after [updateLightAverage] differs from the one before by
    at most d; for ADC readings 0..1023 that is at most 103. *)
Theorem one_reading_moves_little (st : State) (lo hi d v1 v2 : Z) :
  filter_inv st -> coherent st ->
  - sample_bound <= lo -> hi <= sample_bound -> hi - lo <= 10 * d ->
  (within lo hi (lightReadings1 st) -> lo <= v1 <= hi ->
   Z.abs (smoothedLight1 (updateLightAverage st v1 v2) - smoothedLight1 st) <= d) /\
  (within lo hi (lightReadings2 st) -> lo <= v2 <= hi ->
   Z.abs (smoothedLight2 (updateLightAverage st v1 v2) - smoothedLight2 st) <= d).
Proof.
  intros Hinv Hc Hlo Hhi Hd.
  pose proof (update_inv st v1 v2 Hinv) as Hinv'.
  destruct Hinv as ([L1 L2] & Hi & T1 & T2).
  destruct Hinv' as ([L1' L2'] & _ & T1' & T2').
  destruct Hc as (S1 & S2 & _).
  rewrite window_nat in L1, L2, L1', L2'.
  assert (forall buf, within lo hi buf -> within (- sample_bound) sample_bound buf) as Hwide.
  { intros buf Hw. eapply Forall_impl; [exact Hw |]. simpl. lia. }
  assert (forall (buf : list Z) v,
            length buf = 10%nat -> within lo hi buf -> lo <= v <= hi ->
            within lo hi (array_set buf (lightReadIndex st) v) /\
            Z.abs (sumZ (array_set buf (lightReadIndex st) v) - sumZ buf) <= 10 * d) as Hstep.
  { intros buf v Hlen Hw Hv. split; [now apply Forall_insert |].
    rewrite sumZ_array_set by (unfold index_ok in Hi; change lightAverageWindow with 10 in Hi; lia).
    assert (lo <= array_get buf (lightReadIndex st) <= hi) as Hold.
    { unfold array_get.
      destruct (buf !! Z.to_nat (lightReadIndex st)) as [x|] eqn:Hx; simpl.
      - apply (proj1 (Forall_lookup _ _) Hw _ _ Hx).
      - apply lookup_ge_None in Hx. unfold index_ok in Hi.
        change lightAverageWindow with 10 in Hi. lia. }
    lia. }
  split.
  - intros W1 Hv. destruct (Hstep _ v1 L1 W1 Hv) as [W1' Hsum].
    rewrite update_smoothed1, S1, T1, T1'.
    change (lightReadings1 (updateLightAverage st v1 v2))
      with (array_set (lightReadings1 st) (lightReadIndex st) v1) in *.
    rewrite (window_sum_exact _ L1 (Hwide _ W1)).
    rewrite (window_sum_exact _ L1' (Hwide _ W1')).
    change lightAverageWindow with 10. apply quot_close; [lia | exact Hsum].
  - intros W2 Hv. destruct (Hstep _ v2 L2 W2 Hv) as [W2' Hsum].
    rewrite update_smoothed2, S2, T2, T2'.
    change (lightReadings2 (updateLightAverage st v1 v2))
      with (array_set (lightReadings2 st) (lightReadIndex st) v2) in *.
    rewrite (window_sum_exact _ L2 (Hwide _ W2)).
    rewrite (window_sum_exact _ L2' (Hwide _ W2')).
    change lightAverageWindow with 10. apply quot_close; [lia | exact Hsum].
Qed.

Lemma one_reading_moves_little_witness :
  let st := run_passes setup (steady_passes 500 500) in
  Z.abs (smoothedLight1 (updateLightAverage st 1023 0) - smoothedLight1 st) <= 103.
Proof.
  intros st.
  assert (lightReadings1 st = replicate 10 500) as R1 by (vm_compute; reflexivity).
  destruct (one_reading_moves_little st 0 1023 103 1023 0) as [H _];
    try (change sample_bound with 214748364; lia).
  - apply run_passes_inv, setup_inv.
  - apply run_passes_coherent, setup_coherent.
  - apply H; [| lia]. rewrite R1. apply Forall_replicate. lia.
Defined.

Lemma unserviced_passes_invisible_witness :
  serviced_passes setup [mkPass 0 1000 200; mkPass 20 1000 200] = [] /\
  run_passes setup [mkPass 0 1000 200; mkPass 20 1000 200] = setup.
Proof.
  assert (serviced_passes setup [mkPass 0 1000 200; mkPass 20 1000 200] = []) as Hnone
    by reflexivity.
  split; [exact Hnone |].
  destruct (unserviced_passes_invisible setup [mkPass 0 1000 200; mkPass 20 1000 200])
    as (_ & _ & _ & H).
  exact (H Hnone).
Defined.
